(** * Verification of the interactive configuration editor

    A shallow embedding of [configuration.py] (the configuration editor and
    diff engine of trading-peripherals) and the proofs of its specified
    properties.

    Conventions of the embedding.
    - A Python [str] is a [string]; its characters are the code points
      below 256, and the builtins that depend on the character class
      ([lower], [strip], [repr]) are written out for exactly those.
    - Console and file effects are threaded through a [world]: the lines
      still to be typed, what has been printed, and the files on disk.
    - A call either returns, leaves the process through [sys.exit], or
      raises an exception nobody catches: that is an [outcome]. *)

From Stdlib Require Import String Ascii ZArith Lia Bool.
From Stdlib Require Import SpecFloat.
From stdpp Require Import gmap strings list pretty.

Local Open Scope string_scope.
Local Open Scope list_scope.

(** ** Python strings *)

Module Str.

(** [str.lower] on one character: the upper-case letters of ASCII and of
    the Latin-1 supplement (all of 0xC0..0xDE but the multiplication
    sign) move 32 places up. *)
Definition lower_char (c : ascii) : ascii :=
  let n := N_of_ascii c in
  if ((65 <=? n) && (n <=? 90)
      || (192 <=? n) && (n <=? 222) && negb (n =? 215))%N
  then ascii_of_N (n + 32) else c.

Fixpoint lower (s : string) : string :=
  match s with
  | EmptyString => EmptyString
  | String c s' => String (lower_char c) (lower s')
  end.

(** The characters [str.strip] removes: [str.isspace] below 256. *)
Definition is_space (c : ascii) : bool :=
  let n := N_of_ascii c in
  ((9 <=? n) && (n <=? 13) || (28 <=? n) && (n <=? 32)
   || (n =? 133) || (n =? 160))%N.

Fixpoint lstrip (s : string) : string :=
  match s with
  | EmptyString => EmptyString
  | String c s' => if is_space c then lstrip s' else s
  end.

Fixpoint rstrip (s : string) : string :=
  match s with
  | EmptyString => EmptyString
  | String c s' =>
      match rstrip s' with
      | EmptyString => if is_space c then EmptyString else String c EmptyString
      | r => String c r
      end
  end.

Definition strip (s : string) : string := rstrip (lstrip s).

(** Truth value of a string: [if s:]. *)
Definition truthy (s : string) : bool :=
  match s with EmptyString => false | String _ _ => true end.

(** [a or b] on strings. *)
Definition or (a b : string) : string := if truthy a then a else b.

(** [c in s] for a one-character [c]. *)
Fixpoint contains (c : ascii) (s : string) : bool :=
  match s with
  | EmptyString => false
  | String d s' => Ascii.eqb d c || contains c s'
  end.

(** [s[:n]] *)
Definition take (n : nat) (s : string) : string := substring 0 n s.

(** [s * n] *)
Fixpoint times (s : string) (n : nat) : string :=
  match n with O => EmptyString | S n' => s +:+ times s n' end.

(** [s.replace(c, t, 1)] for a one-character [c]: the first occurrence
    of [c] becomes [t]. *)
Fixpoint replace_first (c : ascii) (t : string) (s : string) : string :=
  match s with
  | EmptyString => EmptyString
  | String d s' =>
      if Ascii.eqb d c then t +:+ s' else String d (replace_first c t s')
  end.

Definition of_char (c : ascii) : string := String c EmptyString.

(** Whitespace only: [strip] leaves nothing. *)
Definition blank (s : string) : Prop := strip s = "".

End Str.

(** The characters of a string, in order. *)
Definition chars (s : string) : list ascii := list_ascii_of_string s.

(** ** Processes: console, disk, exits and exceptions *)

(** A configuration document as [configparser] holds it: sections in
    insertion order, each with its options in insertion order and the raw
    text stored for each. *)
Definition section_body : Type := list (string * string).
Definition config : Type := list (string * section_body).

Inductive exception : Set :=
| SyntaxError | ValueError | TypeError | MemoryError | RecursionError
| OverflowError | EOFError | IndexError | KeyError | UnboundLocalError
| RuntimeError.

Inductive outcome (A : Type) : Type :=
| Returns (a : A)
| Exits (status : Z)
| Raises (e : exception).
Arguments Returns {A} a.
Arguments Exits {A} status.
Arguments Raises {A} e.

Record world : Type := World {
  stdin : list string;          (* lines the user is still to type *)
  stdout : list string;         (* everything printed, prompts included *)
  disk : gmap string config;    (* the document persisted under each path *)
  gnupg : option (list string)  (* the key ring, if the gnupg module loads *)
}.

Definition IO (A : Type) : Type := world -> outcome A * world.

#[export] Instance io_ret : MRet IO := fun A a w => (Returns a, w).

#[export] Instance io_bind : MBind IO := fun A B k m w =>
  match m w with
  | (Returns a, w') => k a w'
  | (Exits n, w') => (Exits n, w')
  | (Raises e, w') => (Raises e, w')
  end.

Definition emit (s : string) (w : world) : world :=
  World (stdin w) (stdout w ++ [s]) (disk w) (gnupg w).

(** [print(s)] *)
Definition print (s : string) : IO unit := fun w => (Returns tt, emit s w).

(** [sys.exit(n)] *)
Definition sys_exit {A} (n : Z) : IO A := fun w => (Exits n, w).

Definition raise {A} (e : exception) : IO A := fun w => (Raises e, w).

(** [input(prompt)]: shows the prompt and takes the next line; at the end
    of the input it raises [EOFError]. *)
Definition input (prompt : string) : IO string :=
  fun w =>
    match stdin w with
    | [] => (Raises EOFError, emit prompt w)
    | line :: rest =>
        (Returns line, World rest (stdout w ++ [prompt]) (disk w) (gnupg w))
    end.

(** ** Constants of the module *)

Definition ESC : string := String (ascii_of_nat 27) "".
Definition ANSI_BOLD : string := ESC +:+ "[1m".
Definition ANSI_CURRENT : string := ESC +:+ "[32m".
Definition ANSI_ERROR : string := ESC +:+ "[31m".
Definition ANSI_IDENTIFIER : string := ESC +:+ "[36m".
Definition ANSI_RESET : string := ESC +:+ "[m".
Definition ANSI_UNDERLINE : string := ESC +:+ "[4m".
Definition ANSI_WARNING : string := ESC +:+ "[33m".
Definition INDENT : string := "    ".

(** ** [truncate_string] (local to [check_config_changes]) *)

Definition max_length : nat := 256.

Definition truncate_string (s : string) : string :=
  if Nat.ltb max_length (String.length s)
  then Str.take max_length s +:+ "..."
  else s.

(** The default and user values as [check_config_changes] prints them.
    [has_default] is [default_config.has_option(section, option)]. *)
Definition tidied_default_value (has_default : bool) (default_value : string)
  : string :=
  if has_default
  then if Str.truthy default_value
       then truncate_string default_value
       else ANSI_WARNING +:+ "(empty)" +:+ ANSI_RESET
  else ANSI_WARNING +:+ "(not exist)" +:+ ANSI_RESET.

Definition tidied_user_value (user_value : string) : string :=
  if Str.truthy user_value
  then ANSI_CURRENT +:+ truncate_string user_value +:+ ANSI_RESET
  else ANSI_WARNING +:+ "(empty)" +:+ ANSI_RESET.

(** ** [prompt_for_input] *)

(** The [all_values] argument: [None], a list or a tuple of words. *)
Inductive values : Type :=
| NoValues
| ListValues (words : list string)
| TupleValues (words : list string).

Definition values_words (v : values) : list string :=
  match v with
  | NoValues => []
  | ListValues l | TupleValues l => l
  end.

Definition values_truthy (v : values) : bool :=
  match values_words v with [] => false | _ :: _ => true end.

(** [CustomWordCompleter(words, ignore_case)] *)
Record CustomWordCompleter : Type := Completer {
  words : list string;
  ignore_case : bool
}.

(** [prompt_toolkit.prompt(ANSI(prefix), completer=c)]: a line editor; the
    completer only offers completions while typing, the line returned is
    the line the user submits. *)
Definition pt_prompt (prefix : string) (c : CustomWordCompleter) : IO string :=
  input prefix.

Definition prompt_for_input (prompt : string) (level : nat) (value : string)
    (all_values : values) : IO string :=
  let prompt_prefix :=
    if Str.truthy value
    then Str.times INDENT level +:+ prompt +:+ " "
         +:+ ANSI_CURRENT +:+ value +:+ ANSI_RESET +:+ ": "
    else Str.times INDENT level +:+ prompt +:+ ": " in
  let completer :=
    if values_truthy all_values
    then Some (Completer (values_words all_values) true)
    else if Str.truthy value
         then Some (Completer [value] true)
         else None in
  match completer with
  | Some c =>
      line ← pt_prompt prompt_prefix c;
      mret (Str.or (Str.strip line) value)
  | None =>
      line ← input prompt_prefix;
      mret (Str.strip line)
  end.

(** ** [tidy_answer] *)

(** The inner loop over the characters of one word: the first character
    whose lower-case form is not in [initialism] yet. *)
Fixpoint scan_word (word : string) (initialism : string) : option ascii :=
  match word with
  | EmptyString => None
  | String c rest =>
      if negb (Str.contains (Str.lower_char c) initialism)
      then Some c
      else scan_word rest initialism
  end.

(** The local variables of the outer loop. [mnemonics] and [prompt] are
    unbound until first assigned. *)
Record mnemonic_state : Type := MnemonicState {
  initialism : string;
  previous_initialism : string;
  mnemonics : option ascii;
  prompt_text : option string
}.

Definition undetermined : string := "Undetermined mnemonics.".

(** One turn of [for word_index, word in enumerate(answers)]. *)
Definition mnemonic_step (word_index : nat) (word : string)
    (st : mnemonic_state) : IO mnemonic_state :=
  let '(mn, ini) :=
    match scan_word word (initialism st) with
    | Some c => (Some c, initialism st +:+ Str.lower (Str.of_char c))
    | None => (mnemonics st, initialism st)
    end in
  if String.eqb ini (previous_initialism st)
  then print undetermined;; sys_exit 1
  else
    match mn with
    | None => raise UnboundLocalError
    | Some m =>
        let highlighted_word :=
          Str.replace_first m
            (ANSI_UNDERLINE +:+ Str.of_char m +:+ ANSI_RESET) word in
        match word_index with
        | O => mret (MnemonicState ini ini mn (Some highlighted_word))
        | S _ =>
            match prompt_text st with
            | None => raise UnboundLocalError
            | Some p =>
                mret (MnemonicState ini ini mn
                        (Some (p +:+ "/" +:+ highlighted_word)))
            end
        end
    end.

Fixpoint mnemonic_loop (answers : list string) (word_index : nat)
    (st : mnemonic_state) : IO mnemonic_state :=
  match answers with
  | [] => mret st
  | word :: rest =>
      st' ← mnemonic_step word_index word st;
      mnemonic_loop rest (S word_index) st'
  end.

(** [for index, _ in enumerate(initialism)]: [rest] is what is left of
    [initialism] from position [index] on. The loop assigns to [answer]
    and goes on comparing with the first character of the new [answer]. *)
Fixpoint resolve_loop (answers : list string) (rest : string) (index : nat)
    (answer : string) : IO string :=
  match rest with
  | EmptyString => mret answer
  | String c rest' =>
      match answer with
      | EmptyString => raise IndexError
      | String a0 _ =>
          if Ascii.eqb c a0
          then match answers !! index with
               | Some word => resolve_loop answers rest' (S index) word
               | None => raise IndexError
               end
          else resolve_loop answers rest' (S index) answer
      end
  end.

(** What follows the mnemonic loop: read a line and resolve it. *)
Definition read_answer (answers : list string) (level : nat)
    (st : mnemonic_state) : IO string :=
  match prompt_text st with
  | None => raise UnboundLocalError
  | Some prompt =>
      line ← input (Str.times INDENT level +:+ prompt +:+ ": ");
      let answer := Str.lower (Str.strip line) in
      match answer with
      | EmptyString => mret answer
      | String a0 _ =>
          if negb (Str.contains a0 (initialism st))
          then mret ""
          else resolve_loop answers (initialism st) 0 answer
      end
  end.

Definition tidy_answer (answers : list string) (level : nat) : IO string :=
  st ← mnemonic_loop answers 0 (MnemonicState "" "" None None);
  read_answer answers level st.

(** *** What the specification says of accelerators *)

(** [c] is the first character of [word] whose lower-case form is not
    among [used]. *)
Definition first_unused (word : string) (used : list ascii) (c : ascii)
  : Prop :=
  ∃ pre post,
    chars word = pre ++ c :: post
    ∧ (Str.lower_char c ∉ used)
    ∧ (∀ d, d ∈ pre → Str.lower_char d ∈ used).

(** Every character of [word] is taken, whatever its case. *)
Definition all_used (word : string) (used : list ascii) : Prop :=
  ∀ d, d ∈ chars word → Str.lower_char d ∈ used.

(** [ini] assigns accelerators to [answers]: one per word, in order, each
    the lower-case form of the first character of its word that no
    earlier word was given. *)
Definition accelerators (answers : list string) (ini : list ascii) : Prop :=
  length ini = length answers
  ∧ ∀ i word, answers !! i = Some word →
      ∃ c, first_unused word (take i ini) c
           ∧ ini !! i = Some (Str.lower_char c).

(** ** Python numbers: [float(text)], [int(x)], [str(n)] *)

Module Num.

Local Open Scope Z_scope.

(** A Python [float] is an IEEE 754 binary64 number. *)
Definition prec : Z := 53.
Definition emax : Z := 1024.
Abbreviation float := spec_float.

Definition is_digit (c : ascii) : bool :=
  let n := N_of_ascii c in ((48 <=? n) && (n <=? 57))%N.

Definition digit_value (c : ascii) : Z := Z.of_N (N_of_ascii c) - 48.

Definition underscore : ascii := "_"%char.

(** The rest of a run of digits once one digit has been read: more
    digits, each possibly preceded by one underscore. [n] is the number
    read so far and [k] counts its digits. *)
Fixpoint digit_run (s : list ascii) (n : Z) (k : Z) : Z * Z * list ascii :=
  match s with
  | c :: s' =>
      if is_digit c then digit_run s' (10 * n + digit_value c) (k + 1)
      else if Ascii.eqb c underscore
           then match s' with
                | d :: s'' =>
                    if is_digit d
                    then digit_run s'' (10 * n + digit_value d) (k + 1)
                    else (n, k, s)
                | [] => (n, k, s)
                end
           else (n, k, s)
  | [] => (n, k, s)
  end.

(** A non-empty run of digits continuing the number [n]. *)
Definition digit_part (s : list ascii) (n : Z)
  : option (Z * Z * list ascii) :=
  match s with
  | c :: s' =>
      if is_digit c then Some (digit_run s' (10 * n + digit_value c) 1)
      else None
  | [] => None
  end.

(** An optional sign. *)
Definition sign (s : list ascii) : bool * list ascii :=
  match s with
  | "-"%char :: s' => (true, s')
  | "+"%char :: s' => (false, s')
  | _ => (false, s)
  end.

(** The exponent part, if any, must reach the end of the text. *)
Definition exponent (s : list ascii) : option Z :=
  match s with
  | [] => Some 0
  | c :: s' =>
      if Ascii.eqb (Str.lower_char c) "e"%char
      then let '(neg, s'') := sign s' in
           match digit_part s'' 0 with
           | Some (e, _, []) => Some (if neg then - e else e)
           | _ => None
           end
      else None
  end.

(** A decimal numeral [digits [. [digits]] [exponent]] or
    [. digits [exponent]]: its digits as one integer and the power of
    ten to scale it by. *)
Definition decimal (s : list ascii) : option (Z * Z) :=
  match s with
  | "."%char :: s' =>
      match digit_part s' 0 with
      | Some (m, k, s'') =>
          e ← exponent s''; Some (m, e - k)
      | None => None
      end
  | _ =>
      match digit_part s 0 with
      | Some (m, _, "."%char :: s') =>
          match digit_part s' m with
          | Some (m', k, s'') => e ← exponent s''; Some (m', e - k)
          | None => e ← exponent s'; Some (m, e)
          end
      | Some (m, _, s') => e ← exponent s'; Some (m, e)
      | None => None
      end
  end.

(** The binary64 number nearest to [m * 10 ^ e] (ties to even), for
    [m >= 0]; beyond the range it is an infinity. *)
Definition round_decimal (neg : bool) (m e : Z) : float :=
  match m with
  | Z0 => S754_zero neg
  | Zpos p =>
      if (0 <=? e)%Z
      then match (m * 10 ^ e)%Z with
           | Zpos q => binary_round prec emax neg q 0
           | _ => S754_nan
           end
      else let '(mz, ez, lz) :=
             SFdiv_core_binary prec emax m 0 (10 ^ (- e)) 0 in
           binary_round_aux prec emax neg mz ez lz
  | Zneg _ => S754_nan
  end.

(** [float(text)]; [None] stands for [ValueError]. *)
Definition py_float (text : string) : option float :=
  let '(neg, s) := sign (chars (Str.strip text)) in
  let word := Str.lower (string_of_list_ascii s) in
  if String.eqb word "inf" || String.eqb word "infinity"
  then Some (S754_infinity neg)
  else if String.eqb word "nan" then Some S754_nan
  else '(m, e) ← decimal s; Some (round_decimal neg m e).

(** [int(x)] for a float [x]: truncation towards zero. *)
Definition py_int (x : float) : exception + Z :=
  match x with
  | S754_nan => inl ValueError
  | S754_infinity _ => inl OverflowError
  | S754_zero _ => inr 0
  | S754_finite neg m e =>
      let a := match e with
               | Zneg k => Z.shiftr (Zpos m) (Zpos k)
               | _ => Z.shiftl (Zpos m) e
               end in
      inr (if neg then - a else a)
  end.

(** [b > a] and [b < a] on floats; with a NaN both are false. *)
Definition gt (b a : float) : bool :=
  match SFcompare b a with Some Gt => true | _ => false end.
Definition lt (b a : float) : bool :=
  match SFcompare b a with Some Lt => true | _ => false end.

(** [max(a, b)] and [min(a, b)] keep the first argument unless the
    second is strictly beyond it. *)
Definition max_float (a b : float) : float := if gt b a then b else a.
Definition min_float (a b : float) : float := if lt b a then b else a.

(** [a <= b] on floats. *)
Definition le (a b : float) : Prop := SFleb a b = true.

(** [str(n)] for an integer. *)
Definition str_int (n : Z) : string := pretty n.

End Num.

(** ** The document: [configparser.ConfigParser]

    The parser as the editor uses it: no [DEFAULT] section, option names
    folded to lower case by [optionxform], and values free of ['%']
    interpolation syntax, so that reading an option gives back its stored
    text. *)

Module Cfg.

Definition optionxform (option : string) : string := Str.lower option.

Fixpoint lookup {A} (key : string) (l : list (string * A)) : option A :=
  match l with
  | [] => None
  | (k, a) :: l' => if String.eqb k key then Some a else lookup key l'
  end.

Definition remove {A} (key : string) (l : list (string * A))
  : list (string * A) :=
  filter (λ ka, negb (String.eqb ka.1 key)) l.

(** [d[key] = a] on an insertion-ordered dictionary: an existing key
    keeps its place, a new one goes last. *)
Fixpoint store {A} (key : string) (a : A) (l : list (string * A))
  : list (string * A) :=
  match l with
  | [] => [(key, a)]
  | (k, b) :: l' =>
      if String.eqb k key then (k, a) :: l' else (k, b) :: store key a l'
  end.

Definition sections (cfg : config) : list string := cfg.*1.

Definition has_section (cfg : config) (section : string) : bool :=
  bool_decide (is_Some (lookup section cfg)).

Definition has_option (cfg : config) (section option : string) : bool :=
  match lookup section cfg with
  | None => false
  | Some body => bool_decide (is_Some (lookup (optionxform option) body))
  end.

(** [cfg.options(section)]: a fresh list of the option names. *)
Definition options (cfg : config) (section : string)
  : Datatypes.option (list string) :=
  body ← lookup section cfg; Some (body.*1).

(** [cfg[section].get(option)] and [cfg[section][option]]. *)
Definition get (cfg : config) (section option : string)
  : Datatypes.option string :=
  body ← lookup section cfg; lookup (optionxform option) body.

(** [cfg[section][option] = value]; [None] when the section is
    missing ([KeyError]). *)
Definition set (cfg : config) (section option value : string)
  : Datatypes.option config :=
  body ← lookup section cfg;
  Some (store section (store (optionxform option) value body) cfg).

(** [cfg.remove_option(section, option)] on an existing section. *)
Definition remove_option (cfg : config) (section option : string)
  : config :=
  match lookup section cfg with
  | None => cfg
  | Some body => store section (remove (optionxform option) body) cfg
  end.

Definition add_section (cfg : config) (section : string) : config :=
  cfg ++ [(section, [])].

(** [cfg.read_string(text)]: what the text holds comes on top of what
    the parser holds. *)
Definition read (cfg : config) (document : config) : config :=
  foldl (λ c sb,
           foldl (λ c' ov,
                    store sb.1 (store (optionxform ov.1) ov.2
                                  (default [] (lookup sb.1 c'))) c')
                 (if has_section c sb.1 then c else add_section c sb.1)
                 sb.2)
        cfg document.

End Cfg.

(** [cfg[section][option]] as a statement that may raise [KeyError]. *)
Definition getitem (cfg : config) (section option : string) : IO string :=
  match Cfg.get cfg section option with
  | Some value => mret value
  | None => raise KeyError
  end.

(** [cfg[section][option] = value] *)
Definition setitem (cfg : config) (section option value : string)
  : IO config :=
  match Cfg.set cfg section option value with
  | Some cfg' => mret cfg'
  | None => raise KeyError
  end.

(** ** [read_config] and [write_config]

    A file holds a document. The encrypted sibling of a path is the path
    with [.gpg] added; what [gpg] does to the bytes is left out, the
    decrypted content of an encrypted file is the document that was
    encrypted into it. *)

Definition encrypted_path (config_path : string) : string :=
  config_path +:+ ".gpg".

Definition path_exists (path : string) : IO bool :=
  fun w => (Returns (bool_decide (is_Some (disk w !! path))), w).

Definition write_file (path : string) (cfg : config) : IO unit :=
  fun w =>
    (Returns tt, World (stdin w) (stdout w) (<[path := cfg]> (disk w))
                   (gnupg w)).

Definition read_config (cfg : config) (config_path : string) : IO config :=
  fun w =>
    match disk w !! encrypted_path config_path with
    | Some document =>
        match gnupg w with
        | None => (Raises RuntimeError, w)
        | Some _ => (Returns (Cfg.read cfg document), w)
        end
    | None =>
        match disk w !! config_path with
        | Some document => (Returns (Cfg.read cfg document), w)
        | None => (Returns cfg, w)
        end
    end.

(** The encrypted branch of [write_config]: it needs the module, and a
    key, the configured one or else the first of the key ring. *)
Definition write_encrypted (cfg : config) (config_path : string) : IO unit :=
  fun w =>
    match gnupg w with
    | None => (Raises RuntimeError, w)
    | Some keys =>
        let fingerprint :=
          if Cfg.has_option cfg "General" "fingerprint"
          then default "" (Cfg.get cfg "General" "fingerprint")
          else "" in
        if Str.truthy fingerprint
        then write_file (encrypted_path config_path) cfg w
        else match keys with
             | [] => (Raises IndexError, w)
             | _ :: _ => write_file (encrypted_path config_path) cfg w
             end
    end.

Definition write_config (cfg : config) (config_path : string) : IO unit :=
  encrypted ← path_exists (encrypted_path config_path);
  if encrypted : bool
  then write_encrypted cfg config_path
  else write_file config_path cfg.

(** ** [delete_option] (called without [backup_parameters]) *)

Definition delete_option (cfg : config) (section option config_path : string)
  : IO (config * bool) :=
  if Cfg.has_option cfg section option
  then let cfg' := Cfg.remove_option cfg section option in
       write_config cfg' config_path;;
       mret (cfg', true)
  else print (option +:+ " option does not exist.");;
       mret (cfg, false).

Definition long_value : string :=
  string_of_list_ascii (replicate 257 "a"%char).

(** What holds of the local variables after the words [done]. *)
Record mnemonic_inv (done : list string) (st : mnemonic_state) : Prop := {
  inv_previous : previous_initialism st = initialism st;
  inv_accelerators : accelerators done (chars (initialism st));
  inv_prompt : done ≠ [] → is_Some (prompt_text st)
}.

Definition does_not_exist (option : string) : string :=
  option +:+ " option does not exist.".

Definition sample_config : config :=
  [("General", [("headless", "False"); ("implicitly_wait", "4")])].

(** ** Python values and their canonical text

    The values the editor stores and reads back: [None], the booleans,
    integers, strings, tuples, lists and dictionaries. *)

#[warnings="-register-all"]
Inductive pyval : Type :=
| PNone
| PBool (b : bool)
| PInt (n : Z)
| PStr (s : string)
| PTuple (items : list pyval)
| PList (items : list pyval)
| PDict (entries : list (pyval * pyval)).

Module Repr.

Definition quote : ascii := "'"%char.
Definition dquote : ascii := ascii_of_nat 34.
Definition backslash : ascii := "\"%char.

(** [str.isprintable] on one character below 256. *)
Definition is_printable (c : ascii) : bool :=
  let n := N_of_ascii c in
  ((32 <=? n) && (n <=? 126) || (161 <=? n) && negb (n =? 173))%N.

Definition hex_digit (n : N) : ascii :=
  ascii_of_N (if (n <? 10)%N then 48 + n else 87 + n).

(** How [repr] writes one character of a string delimited by [q]. *)
Definition escape (q : ascii) (c : ascii) : string :=
  if Ascii.eqb c q || Ascii.eqb c backslash
  then String backslash (Str.of_char c)
  else if Ascii.eqb c (ascii_of_nat 9) then "\t"
  else if Ascii.eqb c (ascii_of_nat 10) then "\n"
  else if Ascii.eqb c (ascii_of_nat 13) then "\r"
  else if is_printable c then Str.of_char c
  else let n := N_of_ascii c in
       String backslash
         (String "x" (String (hex_digit (n / 16))
                        (Str.of_char (hex_digit (n mod 16))))).

Fixpoint escape_all (q : ascii) (s : string) : string :=
  match s with
  | EmptyString => EmptyString
  | String c s' => escape q c +:+ escape_all q s'
  end.

(** Double quotes are used only for a string with a single quote and no
    double quote in it. *)
Definition delimiter (s : string) : ascii :=
  if Str.contains quote s && negb (Str.contains dquote s)
  then dquote else quote.

(** [repr(s)] for a string. *)
Definition repr_str (s : string) : string :=
  let q := delimiter s in
  String q (escape_all q s +:+ Str.of_char q).

(** [sep.join(parts)] *)
Fixpoint join (sep : string) (parts : list string) : string :=
  match parts with
  | [] => ""
  | [p] => p
  | p :: rest => p +:+ sep +:+ join sep rest
  end.

(** [repr(v)] *)
Fixpoint repr (v : pyval) : string :=
  match v with
  | PNone => "None"
  | PBool true => "True"
  | PBool false => "False"
  | PInt n => pretty n
  | PStr s => repr_str s
  | PTuple [] => "()"
  | PTuple [x] => "(" +:+ repr x +:+ ",)"
  | PTuple items => "(" +:+ join ", " (map repr items) +:+ ")"
  | PList items => "[" +:+ join ", " (map repr items) +:+ "]"
  | PDict entries =>
      "{" +:+ join ", " (map (λ kv, repr kv.1 +:+ ": " +:+ repr kv.2) entries)
      +:+ "}"
  end.

(** [str(v)]: a string is its own text, anything else its [repr]. *)
Definition str (v : pyval) : string :=
  match v with
  | PStr s => s
  | _ => repr v
  end.

End Repr.

(** ** The editor *)

(** The exceptions [ast.literal_eval] is documented to raise. *)
Inductive eval_error : Set :=
| ESyntaxError | EValueError | ETypeError | EMemoryError | ERecursionError.

(** What a call of [ast.literal_eval] comes to: a value, or one of its
    exceptions with the message [print(e)] would show. *)
Inductive literal_result : Type :=
| Evaluated (v : pyval)
| Failed (e : eval_error) (message : string).

(** A bound of [limits]: [None], an [int] or a [float]. *)
Inductive limit : Type :=
| NoLimit
| IntLimit (n : Z)
| FloatLimit (x : Num.float).

(** [numeric_value] once it is not [None]. *)
Inductive number : Type :=
| IntNumber (n : Z)
| FloatNumber (x : Num.float).

(** What [modify_option] returns: [True], [False], or the answer
    (['back'], ['quit'] or the empty string). *)
Inductive result : Type :=
| RTrue
| RFalse
| RAnswer (answer : string).


Definition is_tuple (v : pyval) : bool :=
  match v with PTuple _ => true | _ => false end.

(** [get_strict_boolean]; [None] stands for its [ValueError]. *)
Definition strict_boolean (value : string) : Datatypes.option bool :=
  let lowered := Str.lower value in
  if String.eqb lowered "true" then Some true
  else if String.eqb lowered "false" then Some false
  else None.

Definition get_strict_boolean (cfg : config) (section option : string)
  : IO (Datatypes.option bool) :=
  value ← getitem cfg section option;
  mret (strict_boolean value).

(** [answers.insert(answers.index('quit'), 'back')] *)
Fixpoint insert_back (answers : list string) : list string :=
  match answers with
  | [] => []
  | a :: rest =>
      if String.eqb a "quit" then "back" :: a :: rest
      else a :: insert_back rest
  end.

(** [answers[answers.index('default')] = 'delete'] *)
Fixpoint default_to_delete (answers : list string) : list string :=
  match answers with
  | [] => []
  | a :: rest =>
      if String.eqb a "default" then "delete" :: rest
      else a :: default_to_delete rest
  end.

Definition not_a_float (value : string) : string :=
  "could not convert string to float: " +:+ Repr.repr_str value.

Definition nan_to_integer : string := "cannot convert float NaN to integer".

Section Editor.

(** [ast.literal_eval], a function of the Python library. *)
Variable literal_eval : string → literal_result.

(** [str(x)] for a float [x]: the shortest decimal text that reads back
    as [x]. *)
Variable float_str : Num.float → string.

(** The three nested editors of the module, console procedures that
    return the edited dictionary, tuple and list of tuples. *)
Variable modify_dictionary :
  list (pyval * pyval) → nat → gmap string string → values
  → IO (list (pyval * pyval)).
Variable modify_tuple :
  list pyval → nat → gmap string string → values → IO (list pyval).
Variable modify_tuple_list :
  list pyval → gmap string string → gmap string (list string)
  → IO (list pyval).

Definition evaluate_value (value : string) : IO pyval :=
  match literal_eval value with
  | Evaluated v => mret v
  | Failed (ESyntaxError | EValueError) _ => mret PNone
  | Failed (ETypeError | EMemoryError | ERecursionError) message =>
      print message;; sys_exit 1
  end.



(** [int(float(value))] under [except ValueError]. *)
Definition to_int (value : string) : IO (Datatypes.option number) :=
  match Num.py_float value with
  | None => print (not_a_float value);; sys_exit 2
  | Some x =>
      match Num.py_int x with
      | inr n => mret (Some (IntNumber n))
      | inl ValueError => print nan_to_integer;; sys_exit 2
      | inl e => raise e
      end
  end.

(** [float(value)] under [except ValueError]. *)
Definition to_float (value : string) : IO (Datatypes.option number) :=
  match Num.py_float value with
  | None => print (not_a_float value);; sys_exit 2
  | Some x => mret (Some (FloatNumber x))
  end.

(** [max(minimum_value, numeric_value)] and
    [min(maximum_value, numeric_value)] for bounds of the number's type. *)
Definition clamp (minimum_value maximum_value : limit) (x : number)
  : number :=
  let x1 :=
    match minimum_value, x with
    | IntLimit lo, IntNumber n => IntNumber (Z.max lo n)
    | FloatLimit lo, FloatNumber y => FloatNumber (Num.max_float lo y)
    | _, _ => x
    end in
  match maximum_value, x1 with
  | IntLimit hi, IntNumber n => IntNumber (Z.min hi n)
  | FloatLimit hi, FloatNumber y => FloatNumber (Num.min_float hi y)
  | _, _ => x1
  end.

Definition str_number (x : number) : string :=
  match x with
  | IntNumber n => Num.str_int n
  | FloatNumber y => float_str y
  end.

(** [value not in all_values and all_values != ('None',)] *)
Definition rejected (value : string) (all_values : values) : bool :=
  values_truthy all_values
  && negb (bool_decide (value ∈ values_words all_values))
  && negb (match all_values with
           | TupleValues ["None"] => true
           | _ => false
           end).

(** [modify_value]. It calls itself until the entry is an allowed value;
    [depth] is how many more nested calls the interpreter allows. *)
Fixpoint modify_value (depth : nat) (prompt : string) (level : nat)
    (value : string) (all_values : values)
    (limits : Datatypes.option (limit * limit)) : IO string :=
  match depth with
  | O => raise RecursionError
  | S depth' =>
      value ← prompt_for_input prompt level value all_values;
      let '(minimum_value, maximum_value) :=
        default (NoLimit, NoLimit) limits in
      numeric_value ←
        match minimum_value, maximum_value with
        | IntLimit _, IntLimit _ => to_int value
        | _, _ => mret None
        end;
      numeric_value ←
        match minimum_value, maximum_value with
        | FloatLimit _, FloatLimit _ => to_float value
        | _, _ => mret numeric_value
        end;
      let value :=
        match numeric_value with
        | Some x => str_number (clamp minimum_value maximum_value x)
        | None => value
        end in
      if rejected value all_values
      then modify_value depth' prompt level
             (ANSI_RESET +:+ ANSI_ERROR +:+ value) all_values None
      else mret value
  end.

Definition option_line (option value : string) : string :=
  ANSI_IDENTIFIER +:+ option +:+ ANSI_RESET +:+ " = "
  +:+ ANSI_CURRENT +:+ value +:+ ANSI_RESET.

(** The menu of [modify_option]. *)
Definition option_answers (boolean_value : Datatypes.option bool)
    (can_back can_insert_delete : bool) : list string :=
  let answers :=
    match boolean_value with
    | Some _ => ["modify"; "toggle"; "empty"; "default"; "quit"]
    | None => ["modify"; "empty"; "default"; "quit"]
    end in
  let answers := if can_back then insert_back answers else answers in
  if can_insert_delete then default_to_delete answers else answers.

(** The ['modify'] branch of [modify_option]. *)
Definition modify_branch (depth : nat) (cfg : config)
    (section option config_path : string) (prompts : gmap string string)
    (items : gmap string (list string)) (all_values : values)
    (limits : Datatypes.option (limit * limit)) : IO (config * result) :=
  text ← getitem cfg section option;
  evaluated_value ← evaluate_value text;
  let save (cfg' : config) : IO (config * result) :=
    write_config cfg' config_path;; mret (cfg', RTrue) in
  match evaluated_value with
  | PDict entries =>
      edited ← modify_dictionary entries 1 prompts all_values;
      cfg' ← setitem cfg section option (Repr.str (PDict edited));
      save cfg'
  | PTuple entry =>
      edited ← modify_tuple entry 1 prompts all_values;
      cfg' ← setitem cfg section option (Repr.str (PTuple edited));
      save cfg'
  | PList entries =>
      if forallb is_tuple entries
      then let entries :=
             match entries with [PTuple []] => [] | _ => entries end in
           tuple_list ← modify_tuple_list entries prompts items;
           match tuple_list with
           | [] =>
               '(cfg', _) ← delete_option cfg section option config_path;
               mret (cfg', RFalse)
           | _ :: _ =>
               cfg' ← setitem cfg section option
                        (Repr.str (PList tuple_list));
               save cfg'
           end
      else
        current ← getitem cfg section option;
        value ← modify_value depth (default "value" (prompts !! "value")) 0
                  current NoValues limits;
        cfg' ← setitem cfg section option value;
        save cfg'
  | _ =>
      current ← getitem cfg section option;
      value ← modify_value depth (default "value" (prompts !! "value")) 0
                current NoValues limits;
      cfg' ← setitem cfg section option value;
      save cfg'
  end.

(** [modify_option] (called without [backup_parameters]). *)
Definition modify_option (depth : nat) (cfg : config)
    (section option config_path : string)
    (can_back can_insert_delete : bool)
    (initial_value : Datatypes.option string)
    (prompts : gmap string string) (items : gmap string (list string))
    (all_values : values) (limits : Datatypes.option (limit * limit))
  : IO (config * result) :=
  cfg ← match initial_value with
        | Some initial =>
            if Str.truthy initial
            then match Cfg.lookup section cfg with
                 | None => raise KeyError
                 | Some _ =>
                     if Cfg.has_option cfg section option then mret cfg
                     else setitem cfg section option initial
                 end
            else mret cfg
        | None => mret cfg
        end;
  if Cfg.has_option cfg section option
  then
    current ← getitem cfg section option;
    print (option_line option current);;
    boolean_value ← get_strict_boolean cfg section option;
    answer ← tidy_answer
               (option_answers boolean_value can_back can_insert_delete) 0;
    let save (cfg' : config) : IO (config * result) :=
      write_config cfg' config_path;; mret (cfg', RTrue) in
    if String.eqb answer "modify"
    then modify_branch depth cfg section option config_path prompts items
           all_values limits
    else if String.eqb answer "toggle"
    then match boolean_value with
         | None => raise UnboundLocalError
         | Some b =>
             cfg' ← setitem cfg section option (Repr.str (PBool (negb b)));
             save cfg'
         end
    else if String.eqb answer "empty"
    then cfg' ← setitem cfg section option ""; save cfg'
    else if String.eqb answer "default" || String.eqb answer "delete"
    then '(cfg', _) ← delete_option cfg section option config_path;
         mret (cfg', RFalse)
    else if String.eqb answer "back"
    then mret (cfg, RAnswer answer)
    else if String.eqb answer "" || String.eqb answer "quit"
    then
      current ← getitem cfg section option;
      if bool_decide (Some current = initial_value)
      then '(cfg', _) ← delete_option cfg section option config_path;
           mret (cfg', RFalse)
      else mret (cfg, RAnswer answer)
    else save cfg
  else print (does_not_exist option);; mret (cfg, RFalse).

End Editor.

(** *** What the specification says of resolving a line *)

(** Where [c] first occurs in [l]. *)
Fixpoint index_of (c : ascii) (l : list ascii) : Datatypes.option nat :=
  match l with
  | [] => None
  | d :: l' => if Ascii.eqb d c then Some 0 else S <$> index_of c l'
  end.

(** The word a stripped, lower-cased line stands for, given the
    accelerators [ini] of [answers]. *)
Definition resolution (answers : list string) (ini : list ascii)
    (answer : string) : string :=
  match answer with
  | EmptyString => ""
  | String c _ =>
      match index_of c ini with
      | Some i => default "" (answers !! i)
      | None => ""
      end
  end.

(** The console once a menu has been shown and a line taken from it. *)
Definition after_menu (w : world) (shown : string) (rest : list string)
  : world :=
  World rest (stdout w ++ [shown]) (disk w) (gnupg w).

(** Stand-ins for the library functions and nested editors, to run the
    editor on examples: nothing evaluates, and the nested editors return
    what they are given. *)
Definition no_literal (text : string) : literal_result :=
  Failed EValueError "malformed node or string".
Definition no_float_str (x : Num.float) : string := "".
Definition keep_dictionary (entries : list (pyval * pyval)) (level : nat)
    (prompts : gmap string string) (all_values : values)
  : IO (list (pyval * pyval)) := mret entries.
Definition keep_tuple (items : list pyval) (level : nat)
    (prompts : gmap string string) (all_values : values)
  : IO (list pyval) := mret items.
Definition keep_tuple_list (tuples : list pyval)
    (prompts : gmap string string) (items : gmap string (list string))
  : IO (list pyval) := mret tuples.

Definition toggled_config : config :=
  [("General", [("headless", "True"); ("implicitly_wait", "4")])].

(** ** [check_config_changes] (called without [backup_parameters])

    The two parser objects and the local variables of the walk. The
    function itself returns nothing; the model hands back the final state
    so that properties can speak of both documents. [fuel] bounds the
    turns of each [while] loop; the result is [None] when it runs out
    before the loop ends. *)

Record walk : Type := Walk {
  default_config : config;
  user_config : config;
  section_index : nat;
  section_indices : list nat;
  option_index : nat;
  option_indices : list nat;
  answer : string
}.

(** How one turn of the inner loop ends. *)
Inductive turn : Type :=
| Next (st : walk)        (* fell through to the end of the body *)
| Again (st : walk)       (* [continue] *)
| Leave (st : walk)       (* [break] *)
| Quit (st : walk).       (* [return] *)

Definition section_header (section : string) : string :=
  "[" +:+ ANSI_BOLD +:+ section +:+ ANSI_RESET +:+ "]".

Definition difference_line (option tidied_default tidied_user : string)
  : string :=
  ANSI_IDENTIFIER +:+ option +:+ ANSI_RESET +:+ ": "
  +:+ tidied_default +:+ " → " +:+ tidied_user.

(** [l.pop()] *)
Definition pop (l : list nat) : Datatypes.option (nat * list nat) :=
  match reverse l with
  | [] => None
  | x :: rest => Some (x, reverse rest)
  end.

(** The menu for a differing option. *)
Definition difference_answers (st : walk) : list string :=
  match section_indices st, option_indices st with
  | [], [] => ["default"; "quit"]
  | _, _ => ["default"; "back"; "quit"]
  end.

(** What is done with the answer given for a differing option. *)
Definition decide_difference (config_path section option : string)
    (st : walk) (answer : string) : IO turn :=
  let st := Walk (default_config st) (user_config st) (section_index st)
              (section_indices st) (option_index st) (option_indices st)
              answer in
  let visited (user : config) : turn :=
    Next (Walk (default_config st) user (section_index st)
            (section_indices st) (S (option_index st))
            (option_indices st ++ [option_index st]) answer) in
  if String.eqb answer "default"
  then let user := Cfg.remove_option (user_config st) section option in
       write_config user config_path;;
       mret (visited user)
  else if String.eqb answer "back"
  then match pop (option_indices st) with
       | Some (index, indices) =>
           mret (Again (Walk (default_config st) (user_config st)
                          (section_index st) (section_indices st) index
                          indices answer))
       | None => mret (Leave st)
       end
  else if String.eqb answer "quit"
  then mret (Quit st)
  else mret (visited (user_config st)).

(** A differing option is shown and the user asked. *)
Definition present_difference (config_path section option : string)
    (default_value : Datatypes.option string) (user_value : string)
    (st : walk) : IO turn :=
  (match option_indices st with
   | [] => print (section_header section)
   | _ :: _ => mret tt
   end);;
  print (difference_line option
           (tidied_default_value
              (Cfg.has_option (default_config st) section option)
              (default "" default_value))
           (tidied_user_value user_value));;
  answer ← tidy_answer (difference_answers st) 0;
  decide_difference config_path section option st answer.

(** One turn of [while option_index < len(options)]. *)
Definition option_turn (config_path section : string)
    (options : list string) (st : walk) : IO turn :=
  match options !! option_index st with
  | None => raise IndexError
  | Some option =>
      let default_value := Cfg.get (default_config st) section option in
      let user_value := Cfg.get (user_config st) section option in
      match user_value with
      | Some value =>
          if bool_decide (default_value ≠ Some value)
          then present_difference config_path section option default_value
                 value st
          else mret (Next (Walk (default_config st) (user_config st)
                             (section_index st) (section_indices st)
                             (S (option_index st)) (option_indices st)
                             (answer st)))
      | None =>
          mret (Next (Walk (default_config st) (user_config st)
                        (section_index st) (section_indices st)
                        (S (option_index st)) (option_indices st)
                        (answer st)))
      end
  end.

(** The inner loop; [inl] is a [return] from the whole function. *)
Fixpoint option_loop (fuel : nat) (config_path section : string)
    (options : list string) (st : walk)
  : IO (Datatypes.option (walk + walk)) :=
  match fuel with
  | O => mret None
  | S fuel' =>
      if bool_decide (option_index st < length options)
      then t ← option_turn config_path section options st;
           match t with
           | Next st' | Again st' =>
               option_loop fuel' config_path section options st'
           | Leave st' => mret (Some (inr st'))
           | Quit st' => mret (Some (inl st'))
           end
      else mret (Some (inr st))
  end.

(** The options walked in a section: those of the default document, then
    the user's own unless the section is among the ignored ones. *)
Definition section_options (user_option_ignored_sections : list string)
    (section : string) (st : walk) : list string :=
  default [] (Cfg.options (default_config st) section)
  ++ filter (λ option,
               (section ∉ user_option_ignored_sections)
               ∧ Cfg.has_option (default_config st) section option = false)
       (default [] (Cfg.options (user_config st) section)).

(** The outer loop. *)
Fixpoint section_loop (fuel : nat) (config_path : string)
    (user_option_ignored_sections sections : list string) (st : walk)
  : IO (Datatypes.option walk) :=
  match fuel with
  | O => mret None
  | S fuel' =>
      match sections !! section_index st with
      | None => mret (Some st)
      | Some section =>
          let user :=
            if Cfg.has_section (user_config st) section
            then user_config st
            else Cfg.add_section (user_config st) section in
          let st := Walk (default_config st) user (section_index st)
                      (section_indices st) 0 [] "" in
          let options :=
            section_options user_option_ignored_sections section st in
          r ← option_loop fuel config_path section options st;
          match r with
          | None => mret None
          | Some (inl st') => mret (Some st')
          | Some (inr st') =>
              if String.eqb (answer st') "back"
              then match pop (section_indices st') with
                   | None => raise IndexError
                   | Some (index, indices) =>
                       section_loop fuel' config_path
                         user_option_ignored_sections sections
                         (Walk (default_config st') (user_config st') index
                            indices (option_index st') (option_indices st')
                            (answer st'))
                   end
              else
                let indices :=
                  match option_indices st' with
                  | [] => section_indices st'
                  | _ :: _ => section_indices st' ++ [section_index st']
                  end in
                section_loop fuel' config_path user_option_ignored_sections
                  sections
                  (Walk (default_config st') (user_config st')
                     (S (section_index st')) indices (option_index st')
                     (option_indices st') (answer st'))
          end
      end
  end.

Definition check_config_changes (fuel : nat) (defaults : config)
    (config_path : string)
    (excluded_sections user_option_ignored_sections : list string)
  : IO (Datatypes.option walk) :=
  let sections :=
    filter (λ section,
              (section ∉ excluded_sections)
              ∧ default [] (Cfg.options defaults section) ≠ [])
      (Cfg.sections defaults) in
  user ← read_config [] config_path;
  section_loop fuel config_path user_option_ignored_sections sections
    (Walk defaults user 0 [] 0 [] "").

Definition turn_state (t : turn) : walk :=
  match t with Next st | Again st | Leave st | Quit st => st end.

(** The spec's example: the default document gives [timeout = 4], the
    user's gives [timeout = 9]. *)
Definition default_document : config := [("General", [("timeout", "4")])].
Definition user_document : config := [("General", [("timeout", "9")])].
Definition reverted_document : config := [("General", [])].

(** What [prompt_for_input] makes of the line typed: with a current value
    shown an empty entry stands for that value. *)
Definition entered (value line : string) : string :=
  if Str.truthy value then Str.or (Str.strip line) value else Str.strip line.

(** The numeric prompt of the spec: [modify_value] with both limits
    integers, or both floats, and no list of allowed values. *)
Definition read_int_clamped (float_str : Num.float → string) (depth : nat)
    (prompt value : string) (lo hi : Z) : IO string :=
  modify_value float_str depth prompt 0 value NoValues
    (Some (IntLimit lo, IntLimit hi)).

Definition read_float_clamped (float_str : Num.float → string) (depth : nat)
    (prompt value : string) (lo hi : Num.float) : IO string :=
  modify_value float_str depth prompt 0 value NoValues
    (Some (FloatLimit lo, FloatLimit hi)).

(** ** A reference for [ast.literal_eval]

    [ast.literal_eval] is a function of the Python library; what the
    round trip needs of it is written out here for a fragment of Python's
    literals: [None], [True], [False], strings in single or double quotes
    with the escapes [repr] produces, tuples, lists and dictionaries with
    string keys, nested at most [nesting_limit] deep, with single spaces
    as the only white space. On a text outside the fragment the reference
    says nothing ([None]); on a text inside it gives the value Python
    gives. *)

Module Literal.

Inductive bracket : Set := Paren | Bracket | Brace.

Inductive token : Type :=
| TNone | TTrue | TFalse
| TStr (s : string)
| TOpen (b : bracket)
| TClose (b : bracket)
| TComma
| TColon.

(** *** Tokens *)













(** *** Values *)

Definition nesting_limit : nat := 100.

(** What has been read of an entry of a dictionary display. *)
Inductive slot : Type :=
| DOpen                    (* a key or the closing brace may come *)
| DKeyed (key : string)    (* a key has come, the colon must come *)
| DColon (key : string)    (* the colon has come, the value must come *)
| DEntry.                  (* an entry is complete *)

(** An open bracket with what it holds so far, last first. In a sequence
    [fresh] tells that an item may come (nothing yet, or a comma last) and
    [commas] that a comma has been seen. *)
Inductive frame : Type :=
| FSeq (b : bracket) (items : list pyval) (fresh commas : bool)
| FDict (entries : list (pyval * pyval)) (s : slot).

Inductive state : Type :=
| Parsing (stack : list frame)
| Done (v : pyval).

Definition dict_keys (entries : list (pyval * pyval)) : list string :=
  omap (λ kv, match kv.1 with PStr k => Some k | _ => None end) entries.

(** A complete value arrives. *)
Definition push (v : pyval) (stack : list frame) : Datatypes.option state :=
  match stack with
  | [] => Some (Done v)
  | FSeq b items true commas :: rest =>
      Some (Parsing (FSeq b (v :: items) false commas :: rest))
  | FDict entries DOpen :: rest =>
      match v with
      | PStr key =>
          if bool_decide (key ∈ dict_keys entries) then None
          else Some (Parsing (FDict entries (DKeyed key) :: rest))
      | _ => None
      end
  | FDict entries (DColon key) :: rest =>
      Some (Parsing (FDict ((PStr key, v) :: entries) DEntry :: rest))
  | _ => None
  end.

(** May a bracket open here? *)
Definition opens (stack : list frame) : bool :=
  match stack with
  | [] => true
  | FSeq _ _ fresh _ :: _ => fresh
  | FDict _ (DColon _) :: _ => true
  | FDict _ _ :: _ => false
  end.

Definition open_frame (b : bracket) : frame :=
  match b with
  | Brace => FDict [] DOpen
  | _ => FSeq b [] true false
  end.

(** The value of a closed sequence. Parentheses around one item without
    a comma are no tuple and are left out. *)
Definition close_seq (b : bracket) (items : list pyval) (commas : bool)
  : Datatypes.option pyval :=
  match b with
  | Paren =>
      match items with
      | [] => Some (PTuple [])
      | _ :: _ => if commas then Some (PTuple (rev items)) else None
      end
  | Bracket => Some (PList (rev items))
  | Brace => None
  end.

Definition bracket_eqb (a b : bracket) : bool :=
  match a, b with
  | Paren, Paren | Bracket, Bracket | Brace, Brace => true
  | _, _ => false
  end.

Definition step (st : state) (t : token) : Datatypes.option state :=
  match st with
  | Done _ => None
  | Parsing stack =>
      match t with
      | TNone => push PNone stack
      | TTrue => push (PBool true) stack
      | TFalse => push (PBool false) stack
      | TStr s => push (PStr s) stack
      | TOpen b =>
          if opens stack && bool_decide (length stack < nesting_limit)
          then Some (Parsing (open_frame b :: stack))
          else None
      | TClose b =>
          match stack with
          | FSeq b' items _ commas :: rest =>
              if bracket_eqb b b'
              then v ← close_seq b' items commas; push v rest
              else None
          | FDict entries (DOpen | DEntry) :: rest =>
              if bracket_eqb b Brace
              then push (PDict (rev entries)) rest
              else None
          | _ => None
          end
      | TComma =>
          match stack with
          | FSeq b items false _ :: rest =>
              Some (Parsing (FSeq b items true true :: rest))
          | FDict entries DEntry :: rest =>
              Some (Parsing (FDict entries DOpen :: rest))
          | _ => None
          end
      | TColon =>
          match stack with
          | FDict entries (DKeyed key) :: rest =>
              Some (Parsing (FDict entries (DColon key) :: rest))
          | _ => None
          end
      end
  end.

Fixpoint run (st : state) (ts : list token) : Datatypes.option state :=
  match ts with
  | [] => Some st
  | t :: ts' => st' ← step st t; run st' ts'
  end.



End Literal.



(** *** What the round trip is stated over *)

(** [parts] with [x] between them. *)
Fixpoint sep {A} (x : A) (parts : list (list A)) : list A :=
  match parts with
  | [] => []
  | [p] => p
  | p :: rest => p ++ x :: sep x rest
  end.















(** A world with an encrypted configuration file and a plain one beside
    it, and no [gnupg] module. *)
Definition locked_world : world :=
  World [] []
    (<["config.ini.gpg" := sample_config]> (<["config.ini" := []]> ∅)) None.

(** Every option of [a] is an option of [b], with the same text. *)
Definition sub_config (a b : config) : Prop :=
  ∀ section option value,
    Cfg.get a section option = Some value →
    Cfg.get b section option = Some value.

(** No file but the configuration file at [path], plain or encrypted, differs
    between [w] and [w']. *)
Definition other_files_kept (path : string) (w w' : world) : Prop :=
  ∀ p, p ≠ path → p ≠ encrypted_path path → disk w' !! p = disk w !! p.


(** ** [CustomWordCompleter.get_completions] *)




(** ** [modify_dictionary]

    The nested editors work on Python values, not on their text: the
    value shown and offered as the current one may be any value, what is
    typed is a string. *)

(** Truth value of a Python value: [if value:]. *)
Definition py_truthy (v : pyval) : bool :=
  match v with
  | PNone => false
  | PBool b => b
  | PInt n => negb (n =? 0)%Z
  | PStr s => Str.truthy s
  | PTuple items | PList items =>
      match items with [] => false | _ :: _ => true end
  | PDict entries => match entries with [] => false | _ :: _ => true end
  end.

(** [prompt_for_input] for a current value of any type. The completer is
    only consulted while typing; what counts is whether there is one. *)
Definition prompt_for_value (prompt : string) (level : nat) (value : pyval)
    (all_values : values) : IO pyval :=
  let prompt_prefix :=
    if py_truthy value
    then Str.times INDENT level +:+ prompt +:+ " "
         +:+ ANSI_CURRENT +:+ Repr.str value +:+ ANSI_RESET +:+ ": "
    else Str.times INDENT level +:+ prompt +:+ ": " in
  if values_truthy all_values || py_truthy value
  then line ← input prompt_prefix;
       mret (if Str.truthy (Str.strip line) then PStr (Str.strip line)
             else value)
  else line ← input prompt_prefix;
       mret (PStr (Str.strip line)).

(** [value in all_values] for a collection of strings. *)
Definition in_values (value : pyval) (all_values : values) : bool :=
  match value with
  | PStr s => bool_decide (s ∈ values_words all_values)
  | _ => false
  end.

(** [modify_value] without limits for a current value of any type; the
    nested call it makes on a rejected entry is given a string. *)
Definition modify_value_of (float_str : Num.float → string) (depth : nat)
    (prompt : string) (level : nat) (value : pyval) (all_values : values)
  : IO pyval :=
  match depth with
  | O => raise RecursionError
  | S depth' =>
      value ← prompt_for_value prompt level value all_values;
      if values_truthy all_values && negb (in_values value all_values)
         && negb (match all_values with
                  | TupleValues ["None"] => true
                  | _ => false
                  end)
      then value ← modify_value float_str depth' prompt level
                     (ANSI_RESET +:+ ANSI_ERROR +:+ Repr.str value)
                     all_values None;
           mret (PStr value)
      else mret value
  end.

(** [l[index]] for a Python index: where in [l] it points, if anywhere. *)
Definition py_position (len : nat) (index : Z) : Datatypes.option nat :=
  if (0 <=? index)%Z
  then if (index <? Z.of_nat len)%Z then Some (Z.to_nat index) else None
  else if (- Z.of_nat len <=? index)%Z
       then Some (Z.to_nat (Z.of_nat len + index))
       else None.

Definition entry_line (level : nat) (key value : pyval) : string :=
  Str.times INDENT level +:+ ANSI_IDENTIFIER +:+ Repr.str key +:+ ANSI_RESET
  +:+ ": " +:+ ANSI_CURRENT +:+ Repr.str value +:+ ANSI_RESET.

(** The menu at position [index] of a dictionary. *)
Definition dictionary_answers (index : Z) : list string :=
  if (index =? 0)%Z then ["modify"; "empty"; "quit"]
  else ["modify"; "empty"; "back"; "quit"].

(** The [while] loop of [modify_dictionary]. A dictionary is its entries
    in insertion order; its keys are distinct, so that the entry of
    [keys[index]] is the one at that position. [fuel] bounds the turns of
    the loop; the result is [None] when it runs out. *)
Fixpoint dictionary_loop (float_str : Num.float → string) (depth : nat)
    (fuel : nat) (level : nat) (value_prompt : string) (all_values : values)
    (dictionary : list (pyval * pyval)) (index : Z)
  : IO (Datatypes.option (list (pyval * pyval))) :=
  match fuel with
  | O => mret None
  | S fuel' =>
      if (index <? Z.of_nat (length dictionary))%Z
      then
        match i ← py_position (length dictionary) index;
              kv ← dictionary !! i; Some (i, kv) with
        | None => raise IndexError
        | Some (i, (key, value)) =>
            print (entry_line level key value);;
            answer ← tidy_answer (dictionary_answers index) level;
            if String.eqb answer "modify"
            then new ← modify_value_of float_str depth value_prompt level
                         value all_values;
                 dictionary_loop float_str depth fuel' level value_prompt
                   all_values (<[i := (key, new)]> dictionary) (index + 1)
            else if String.eqb answer "empty"
            then dictionary_loop float_str depth fuel' level value_prompt
                   all_values (<[i := (key, PStr "")]> dictionary)
                   (index + 1)
            else if String.eqb answer "back"
            then dictionary_loop float_str depth fuel' level value_prompt
                   all_values dictionary (index - 1)
            else if String.eqb answer "quit"
            then mret (Some dictionary)
            else dictionary_loop float_str depth fuel' level value_prompt
                   all_values dictionary (index + 1)
        end
      else mret (Some dictionary)
  end.

Definition modify_dictionary (float_str : Num.float → string)
    (depth fuel : nat) (dictionary : list (pyval * pyval)) (level : nat)
    (prompts : gmap string string) (all_values : values)
  : IO (Datatypes.option (list (pyval * pyval))) :=
  dictionary_loop float_str depth fuel level
    (default "value" (prompts !! "value")) all_values dictionary 0.

(** Did a loop with a bound on its turns run out of them? *)
Definition ran_out {A} (o : outcome (Datatypes.option A)) : bool :=
  match o with
  | Returns None => true
  | _ => false
  end.

(** An edited value is the old one or a string. *)
Definition edited (old new : pyval) : Prop :=
  new = old ∨ ∃ s, new = PStr s.

(** An edited dictionary has the keys of the old one, in the same
    order, each with the old value or a string. *)
Definition edited_entries (old new : list (pyval * pyval)) : Prop :=
  new.*1 = old.*1 ∧ Forall2 edited old.*2 new.*2.

Definition sample_dictionary : list (pyval * pyval) :=
  [(PStr "exchange", PStr "TSE"); (PStr "lots", PInt 1)].

Definition edited_dictionary : list (pyval * pyval) :=
  [(PStr "exchange", PStr ""); (PStr "lots", PStr "5")].

(** ** [modify_tuple] *)

(** [l[index]] *)
Definition py_item {A} (l : list A) (index : Z) : Datatypes.option A :=
  i ← py_position (length l) index; l !! i.

(** [l[index:index + 1]]: the item at [index] if the slice is not empty. *)
Definition py_slice1 {A} (l : list A) (index : Z) : Datatypes.option A :=
  if (index =? -1)%Z then None else py_item l index.

(** [l.insert(index, x)] *)
Definition py_insert {A} (l : list A) (index : Z) (x : A) : list A :=
  let i :=
    if (index <? 0)%Z then Z.to_nat (Z.max 0 (Z.of_nat (length l) + index))
    else Nat.min (Z.to_nat index) (length l) in
  take i l ++ x :: drop i l.

(** The collection of allowed values for the item at [index], out of the
    sequence of collections [modify_tuple] is given. *)
Definition tuple_values (all_values : list values) (index : Z) : values :=
  match all_values with
  | [only] => only
  | _ => default NoValues (py_slice1 all_values index)
  end.

(** The menu at position [index] of a tuple: [at_end] past the last
    item, [fixed] when the prompts name the items of the tuple. *)
Definition tuple_answers (at_end fixed : bool) (index : Z) : list string :=
  let answers :=
    if at_end then ["insert"; "back"; "quit"]
    else if fixed then ["modify"; "empty"; "back"; "quit"]
    else ["insert"; "modify"; "delete"; "back"; "quit"] in
  if (index =? 0)%Z
  then filter (λ word, word ≠ "back") answers
  else answers.

Definition end_of_tuple (level : nat) (prompts : gmap string string)
  : string :=
  Str.times INDENT level +:+ ANSI_WARNING
  +:+ default "end of tuple" (prompts !! "end_of_list") +:+ ANSI_RESET.

Definition item_line (level : nat) (item : pyval) : string :=
  Str.times INDENT level +:+ ANSI_CURRENT +:+ Repr.str item +:+ ANSI_RESET.

(** The [while] loop of [modify_tuple]. [values_prompt] is
    [prompts.get('values', ())], a tuple of prompts, and [all_values] a
    sequence of collections of words. [fuel] bounds the turns of the
    loop; the result is [None] when it runs out. *)
Fixpoint tuple_loop (float_str : Num.float → string) (depth : nat)
    (fuel : nat) (level : nat) (prompts : gmap string string)
    (values_prompt : list string) (all_values : list values)
    (tuple_entry : list pyval) (index : Z)
  : IO (Datatypes.option (list pyval)) :=
  match fuel with
  | O => mret None
  | S fuel' =>
      if (index <=? Z.of_nat (length tuple_entry))%Z
      then
        let fixed := match values_prompt with [] => false | _ => true end in
        let at_end := (index =? Z.of_nat (length tuple_entry))%Z in
        (if at_end
         then print (end_of_tuple level prompts)
         else match py_item tuple_entry index with
              | Some item => print (item_line level item)
              | None => raise IndexError
              end);;
        answer ← tidy_answer (tuple_answers at_end fixed index) level;
        (* the end of a turn that is not cut short *)
        let next (tuple_entry : list pyval) (index : Z) :=
          if fixed && (index + 1 =? Z.of_nat (length values_prompt))%Z
          then mret (Some tuple_entry)
          else tuple_loop float_str depth fuel' level prompts values_prompt
                 all_values tuple_entry (index + 1)%Z in
        let value_prompt :=
          default (default "value" (prompts !! "value"))
            (py_slice1 values_prompt index) in
        if String.eqb answer "insert"
        then value ← modify_value_of float_str depth value_prompt level
                       (PStr "") (tuple_values all_values index);
             next (py_insert tuple_entry index value) index
        else if String.eqb answer "modify"
        then match py_item tuple_entry index with
             | None => raise IndexError
             | Some item =>
                 value ← modify_value_of float_str depth value_prompt level
                           item (tuple_values all_values index);
                 match py_position (length tuple_entry) index with
                 | Some i => next (<[i := value]> tuple_entry) index
                 | None => raise IndexError
                 end
             end
        else if String.eqb answer "empty"
        then match py_position (length tuple_entry) index with
             | Some i => next (<[i := PStr ""]> tuple_entry) index
             | None => raise IndexError
             end
        else if String.eqb answer "delete"
        then match py_position (length tuple_entry) index with
             | Some i => next (delete i tuple_entry) (index - 1)%Z
             | None => raise IndexError
             end
        else if String.eqb answer "back"
        then tuple_loop float_str depth fuel' level prompts values_prompt
               all_values tuple_entry (index - 1)%Z
        else if String.eqb answer "quit"
        then mret (Some tuple_entry)
        else next tuple_entry index
      else mret (Some tuple_entry)
  end.

Definition modify_tuple (float_str : Num.float → string)
    (depth fuel : nat) (tuple_entry : list pyval) (level : nat)
    (prompts : gmap string string) (values_prompt : list string)
    (all_values : list values) : IO (Datatypes.option (list pyval)) :=
  tuple_loop float_str depth fuel level prompts values_prompt all_values
    tuple_entry 0.

(** An item of an edited tuple is an item of the old one or a string. *)
Definition from_tuple (old : list pyval) (item : pyval) : Prop :=
  item ∈ old ∨ ∃ s, item = PStr s.

Definition sample_tuple : list pyval := [PStr "click"; PInt 10].
Definition edited_tuple : list pyval := [PStr "click"; PStr "20"; PStr ""].

(** ** [modify_section] (called without [backup_parameters]) *)

Definition section_does_not_exist (section : string) : string :=
  section +:+ " section does not exist.".

Definition end_of_section (prompts : gmap string string) : string :=
  ANSI_WARNING +:+ default "end of section" (prompts !! "end_of_list")
  +:+ ANSI_RESET.

(** The local variables of the loop of [modify_section], with the
    document. *)
Record section_walk : Type := SectionWalk {
  walk_config : config;
  walk_index : Z;
  walk_options : list string;
  walk_length : Z
}.

Section SectionEditor.

Variable literal_eval : string → literal_result.
Variable float_str : Num.float → string.
Variable modify_dictionary :
  list (pyval * pyval) → nat → gmap string string → values
  → IO (list (pyval * pyval)).
Variable modify_tuple :
  list pyval → nat → gmap string string → values → IO (list pyval).
Variable modify_tuple_list :
  list pyval → gmap string string → gmap string (list string)
  → IO (list pyval).

(** The ['insert'] branch: the new option is kept in the list of options,
    and the document written, only if its value is not empty. *)
Definition insert_option (depth : nat) (section config_path : string)
    (prompts : gmap string string) (all_values : values)
    (st : section_walk) : IO section_walk :=
  option ← modify_value float_str depth
             (default "option" (prompts !! "key")) 0 "" NoValues None;
  value ←
    (if values_truthy all_values
     then edited ← modify_tuple [] 1 prompts all_values;
          mret (Repr.str (PTuple edited))
     else modify_value float_str depth "value" 0 "" NoValues None);
  cfg ← setitem (walk_config st) section option value;
  current ← getitem cfg section option;
  if (if values_truthy all_values
      then negb (String.eqb current "()")
      else Str.truthy current)
  then write_config cfg config_path;;
       mret (SectionWalk cfg (walk_index st) (walk_options st ++ [option])
               (walk_length st + 1))
  else mret (SectionWalk cfg (walk_index st) (walk_options st)
               (walk_length st)).

(** The [while] loop; [inl] is a [return] from inside the loop. [fuel]
    bounds its turns; the result is [None] when it runs out. *)
Fixpoint section_walk_loop (depth fuel : nat)
    (section config_path : string) (can_back can_insert_delete : bool)
    (prompts : gmap string string) (items : gmap string (list string))
    (all_values : values) (st : section_walk)
  : IO (Datatypes.option (config * result)) :=
  match fuel with
  | O => mret None
  | S fuel' =>
      let again (st : section_walk) :=
        section_walk_loop depth fuel' section config_path can_back
          can_insert_delete prompts items all_values st in
      let step (st : section_walk) (by_ : Z) :=
        again (SectionWalk (walk_config st) (walk_index st + by_)
                 (walk_options st) (walk_length st)) in
      if (walk_index st <? walk_length st)%Z
      then
        if (walk_index st <? Z.of_nat (length (walk_options st)))%Z
        then
          match py_item (walk_options st) (walk_index st) with
          | None => raise IndexError
          | Some option =>
              let current_can_back :=
                if (walk_index st =? 0)%Z then false else can_back in
              '(cfg, result) ←
                modify_option literal_eval float_str modify_dictionary
                  modify_tuple modify_tuple_list depth (walk_config st)
                  section option config_path current_can_back
                  can_insert_delete None prompts items all_values None;
              let st := SectionWalk cfg (walk_index st) (walk_options st)
                          (walk_length st) in
              match result with
              | RAnswer "back" => step st (-1)%Z
              | RAnswer "quit" => mret (Some (cfg, result))
              | _ => step st 1%Z
              end
          end
        else
          print (end_of_section prompts);;
          answer ← tidy_answer ["insert"; "back"; "quit"] 0;
          if String.eqb answer "insert"
          then st ← insert_option depth section config_path prompts
                      all_values st;
               step st 1%Z
          else if String.eqb answer "back"
          then step st (-1)%Z
          else if String.eqb answer "" || String.eqb answer "quit"
          then mret (Some (walk_config st, RTrue))
          else step st 1%Z
      else mret (Some (walk_config st, RTrue))
  end.

Definition modify_section (depth fuel : nat) (cfg : config)
    (section config_path : string) (can_back can_insert_delete : bool)
    (prompts : gmap string string) (items : gmap string (list string))
    (all_values : values) : IO (Datatypes.option (config * result)) :=
  match Cfg.options cfg section with
  | Some options =>
      section_walk_loop depth fuel section config_path can_back
        can_insert_delete prompts items all_values
        (SectionWalk cfg 0 options
           (if can_insert_delete then Z.of_nat (length options) + 1
            else Z.of_nat (length options)))
  | None =>
      print (section_does_not_exist section);; mret (Some (cfg, RFalse))
  end.

End SectionEditor.

Definition empty_section_config : config := [("Actions", [])].


(** ** [configure_position] *)

(** [str.isdigit] on one character below 256: the ten digits and the
    superscripts one, two and three. *)
Definition isdigit_char (c : ascii) : bool :=
  let n := N_of_ascii c in
  ((48 <=? n) && (n <=? 57) || (n =? 178) || (n =? 179) || (n =? 185))%N.

(** [s.isdigit()] *)
Definition isdigit (s : string) : bool :=
  Str.truthy s && forallb isdigit_char (chars s).

(** [s.split(c)] for a one-character separator. *)
Fixpoint split (c : ascii) (s : string) : list string :=
  match s with
  | EmptyString => [""]
  | String d s' =>
      if Ascii.eqb d c then "" :: split c s'
      else match split c s' with
           | part :: parts => String d part :: parts
           | [] => [String d ""]
           end
  end.

(** The coordinates typed as [x, y], tidied; [None] when the text is
    not of that form. *)
Definition typed_position (value : string) : Datatypes.option string :=
  match split "," value with
  | [x; y] =>
      if isdigit (Str.strip x) && isdigit (Str.strip y)
      then Some (Str.strip x +:+ ", " +:+ Str.strip y)
      else None
  | _ => None
  end.

(** What [configure_position] returns: [False] without the GUI modules,
    else the coordinates. *)
Inductive position : Type :=
| NoPosition
| Position (coordinates : string).

Definition waiting_for_click (level : nat) : string :=
  Str.times INDENT level +:+ ANSI_WARNING +:+ "waiting for click..."
  +:+ ANSI_RESET.

(** The loop that waits for a click. [readings] are the successive
    states of the left mouse button as [win32api.GetKeyState] reports
    them, and [pointer] is where [pyautogui.position] finds the pointer.
    The result is [None] when the readings end with no click seen. *)
Fixpoint wait_for_click (level : nat) (previous_key_state : Z)
    (readings : list Z) (pointer : Z * Z)
  : IO (Datatypes.option string) :=
  match readings with
  | [] => mret None
  | key_state :: readings' =>
      if negb (key_state =? previous_key_state)%Z
         && negb ((key_state =? 0)%Z || (key_state =? 1)%Z)
      then let coordinates :=
             Num.str_int pointer.1 +:+ ", " +:+ Num.str_int pointer.2 in
           print (Str.times INDENT level +:+ "coordinates: "
                  +:+ coordinates);;
           mret (Some coordinates)
      else wait_for_click level previous_key_state readings' pointer
  end.

(** [configure_position]. [gui_import_error] is the message of
    [GUI_IMPORT_ERROR] if the GUI modules failed to load; [depth] is how
    many more nested calls the interpreter allows. *)
Fixpoint configure_position (depth : nat)
    (gui_import_error : Datatypes.option string) (readings : list Z)
    (pointer : Z * Z) (level : nat) (value : string)
  : IO (Datatypes.option position) :=
  match depth with
  | O => raise RecursionError
  | S depth' =>
      match gui_import_error with
      | Some message => print message;; mret (Some NoPosition)
      | None =>
          value ← prompt_for_input
                    ("coordinates/" +:+ ANSI_UNDERLINE +:+ "c" +:+ ANSI_RESET
                     +:+ "lick") level value NoValues;
          if match value with
             | EmptyString => false
             | String c _ => Ascii.eqb (Str.lower_char c) "c"
             end
          then match readings with
               | [] => mret None
               | previous_key_state :: readings' =>
                   print (waiting_for_click level);;
                   coordinates ← wait_for_click level previous_key_state
                                   readings' pointer;
                   mret (Position <$> coordinates)
               end
          else match typed_position value with
               | Some coordinates => mret (Some (Position coordinates))
               | None =>
                   configure_position depth' gui_import_error readings
                     pointer level (ANSI_RESET +:+ ANSI_ERROR +:+ value)
               end
      end
  end.

(** * Properties *)

(** ** Strings *)

Lemma str_app_nil_l (t : string) : "" +:+ t = t.
Proof. reflexivity. Qed.

Lemma str_app_cons (c : ascii) (s t : string) :
  String c s +:+ t = String c (s +:+ t).
Proof. reflexivity. Qed.

Lemma str_app_nil_r (s : string) : s +:+ "" = s.
Proof.
  induction s as [|c s IH]; [reflexivity|].
  rewrite str_app_cons. congruence.
Qed.

Lemma str_app_assoc (s t u : string) : (s +:+ t) +:+ u = s +:+ (t +:+ u).
Proof.
  induction s as [|c s IH]; [reflexivity|].
  rewrite !str_app_cons. congruence.
Qed.

Lemma str_length_app (s t : string) :
  String.length (s +:+ t) = String.length s + String.length t.
Proof.
  induction s as [|c s IH]; [reflexivity|].
  rewrite str_app_cons. simpl. congruence.
Qed.

Lemma str_length_take (n : nat) (s : string) :
  String.length (Str.take n s) = Nat.min n (String.length s).
Proof.
  unfold Str.take. revert n.
  induction s as [|c s IH]; intros [|n]; simpl; auto.
Qed.

Lemma str_take_all (n : nat) (s : string) :
  String.length s <= n → Str.take n s = s.
Proof.
  unfold Str.take. revert n.
  induction s as [|c s IH]; intros [|n] H; simpl in *; auto; try lia.
  f_equal. apply IH. lia.
Qed.

(** ** C9: what the reconciler prints of a value *)

(** C9, as stated, fails: a stored value of 257 characters is printed as
    259 characters, more than the 256 the specification allows. *)
Lemma truncate_string_exceeds_256 :
  ¬ (String.length (truncate_string long_value) <= 256).
Proof. vm_compute. lia. Qed.

(** C9 (amended): the reconciler prints a value as it is stored when it
    has at most 256 characters, and otherwise as its first 256 characters
    followed by three dots, 259 characters in all; that form is what it
    shows for a non-empty default value and, between colour codes, for a
    non-empty user value. *)
Theorem truncate_string_keeps_256 (s : string) :
  truncate_string s
    = Str.take 256 s +:+ (if Nat.leb (String.length s) 256 then "" else "...")
  ∧ String.length (truncate_string s)
    = (if Nat.leb (String.length s) 256 then String.length s else 259)
  ∧ String.prefix (Str.take 256 s) s = true
  ∧ ∀ c,
      tidied_default_value true (String c s) = truncate_string (String c s)
      ∧ tidied_user_value (String c s)
        = ANSI_CURRENT +:+ truncate_string (String c s) +:+ ANSI_RESET.
Proof.
  assert (∀ c,
    tidied_default_value true (String c s) = truncate_string (String c s)
    ∧ tidied_user_value (String c s)
      = ANSI_CURRENT +:+ truncate_string (String c s) +:+ ANSI_RESET)
    as Hprinted by (intros c; split; reflexivity).
  cut (truncate_string s
         = Str.take 256 s
           +:+ (if Nat.leb (String.length s) 256 then "" else "...")
       ∧ String.length (truncate_string s)
         = (if Nat.leb (String.length s) 256 then String.length s else 259)
       ∧ String.prefix (Str.take 256 s) s = true).
  { intros (H1 & H2 & H3). auto. }
  clear Hprinted. unfold truncate_string, max_length.
  destruct (Nat.leb_spec (String.length s) 256) as [Hle|Hgt].
  - assert (Nat.ltb 256 (String.length s) = false) as ->
      by (apply Nat.ltb_ge; lia).
    rewrite str_take_all, str_app_nil_r by lia. repeat split; try reflexivity.
    apply prefix_correct. apply str_take_all. lia.
  - assert (Nat.ltb 256 (String.length s) = true) as ->
      by (apply Nat.ltb_lt; lia).
    repeat split; try reflexivity.
    + rewrite str_length_app, str_length_take.
      change (String.length "...") with 3. lia.
    + apply prefix_correct.
      pose proof (str_length_take 256 s) as L. unfold Str.take in *.
      rewrite L. f_equal. lia.
Qed.

(** ** C10: an empty line at a value prompt keeps the current value *)

Lemma truthy_nonempty (s : string) : Str.truthy s = true ↔ s ≠ "".
Proof. destruct s; simpl; split; congruence. Qed.

(** C10: when a current value is shown, an empty or whitespace-only line
    returns that value, and no line at all makes the prompt return the
    empty string. *)
Theorem prompt_for_input_keeps_value
    (prompt : string) (level : nat) (value : string) (all_values : values)
    (w : world) (line : string) (rest : list string) :
  value ≠ "" →
  stdin w = line :: rest →
  (Str.blank line →
     (prompt_for_input prompt level value all_values w).1 = Returns value)
  ∧ (prompt_for_input prompt level value all_values w).1 ≠ Returns "".
Proof.
  intros Hv Hin. apply truthy_nonempty in Hv as Ht.
  assert ((prompt_for_input prompt level value all_values w).1
          = Returns (Str.or (Str.strip line) value)) as ->.
  { unfold prompt_for_input. rewrite Ht.
    destruct (values_truthy all_values);
      unfold mbind, io_bind, pt_prompt, input; rewrite Hin; reflexivity. }
  split.
  - intros Hb. unfold Str.blank in Hb. rewrite Hb. reflexivity.
  - unfold Str.or. destruct (Str.truthy (Str.strip line)) eqn:Es.
    + apply truthy_nonempty in Es. congruence.
    + congruence.
Qed.

Lemma prompt_for_input_keeps_value_witness :
  (prompt_for_input "value" 0 "4" NoValues (World ["  "] [] ∅ None)).1
  = Returns "4".
Proof.
  apply (prompt_for_input_keeps_value "value" 0 "4" NoValues
           (World ["  "] [] ∅ None) "  " []); [discriminate | reflexivity |].
  reflexivity.
Defined.

(** ** The accelerators of [tidy_answer] *)

Lemma chars_app (s t : string) : chars (s +:+ t) = chars s ++ chars t.
Proof.
  induction s as [|c s IH]; [reflexivity|].
  rewrite str_app_cons. simpl. congruence.
Qed.

Lemma chars_inj (s t : string) : chars s = chars t → s = t.
Proof.
  intros E. rewrite <- (string_of_list_ascii_of_string s),
    <- (string_of_list_ascii_of_string t). unfold chars in E. congruence.
Qed.

Lemma length_chars (s : string) : length (chars s) = String.length s.
Proof. induction s; simpl; congruence. Qed.

Lemma contains_elem (c : ascii) (s : string) :
  Str.contains c s = true ↔ c ∈ chars s.
Proof.
  induction s as [|d s IH]; simpl.
  - split; [discriminate | intros H; inversion H].
  - rewrite orb_true_iff, IH, Ascii.eqb_eq, elem_of_cons. intuition congruence.
Qed.

Lemma contains_not_elem (c : ascii) (s : string) :
  Str.contains c s = false ↔ c ∉ chars s.
Proof.
  rewrite <- contains_elem. destruct (Str.contains c s); intuition congruence.
Qed.

Lemma lower_char_idemp (c : ascii) :
  Str.lower_char (Str.lower_char c) = Str.lower_char c.
Proof. destruct c as [[] [] [] [] [] [] [] []]; reflexivity. Qed.

(** The inner loop finds exactly the first unused character. *)
Lemma scan_word_first_unused (word ini : string) (c : ascii) :
  scan_word word ini = Some c ↔ first_unused word (chars ini) c.
Proof.
  unfold first_unused. induction word as [|d word IH]; simpl.
  - split; [discriminate|]. intros (pre & post & E & _).
    destruct pre; discriminate.
  - destruct (Str.contains (Str.lower_char d) ini) eqn:Ed; simpl.
    + apply contains_elem in Ed. rewrite IH. split.
      * intros (pre & post & E & Hc & Hpre).
        exists (d :: pre), post. rewrite E. split; [reflexivity|].
        split; [assumption|]. intros x [->|Hx]%elem_of_cons; auto.
      * intros (pre & post & E & Hc & Hpre).
        destruct pre as [|x pre]; simpl in E; inversion E; subst.
        -- contradiction.
        -- exists pre, post. split; [done|]. split; [assumption|].
           intros y Hy. apply Hpre. now right.
    + apply contains_not_elem in Ed. split.
      * intros [= <-]. exists [], (chars word). split; [reflexivity|].
        split; [assumption|]. intros x Hx. inversion Hx.
      * intros (pre & post & E & Hc & Hpre).
        destruct pre as [|x pre]; simpl in E; inversion E; subst.
        -- reflexivity.
        -- exfalso. apply Ed, Hpre. now left.
Qed.

Lemma scan_word_all_used (word ini : string) :
  scan_word word ini = None ↔ all_used word (chars ini).
Proof.
  unfold all_used. induction word as [|d word IH]; simpl.
  - split; [|reflexivity]. intros _ x Hx. inversion Hx.
  - destruct (Str.contains (Str.lower_char d) ini) eqn:Ed; simpl.
    + apply contains_elem in Ed. rewrite IH. split.
      * intros H x [->|Hx]%elem_of_cons; auto.
      * intros H x Hx. apply H. now right.
    + apply contains_not_elem in Ed. split; [discriminate|].
      intros H. exfalso. apply Ed, H. now left.
Qed.

Lemma first_unused_functional (word : string) (used : list ascii)
    (c c' : ascii) :
  first_unused word used c → first_unused word used c' → c = c'.
Proof.
  rewrite <- (list_ascii_of_string_of_list_ascii used).
  fold (chars (string_of_list_ascii used)).
  rewrite <- !scan_word_first_unused. congruence.
Qed.

Lemma first_unused_not_all_used (word : string) (used : list ascii)
    (c : ascii) :
  first_unused word used c → all_used word used → False.
Proof.
  rewrite <- (list_ascii_of_string_of_list_ascii used).
  fold (chars (string_of_list_ascii used)).
  rewrite <- scan_word_first_unused, <- scan_word_all_used. congruence.
Qed.

Lemma accelerators_nil : accelerators [] [].
Proof. split; [reflexivity|]. intros i word H. inversion H. Qed.

Lemma accelerators_snoc (answers : list string) (ini : list ascii)
    (word : string) (c : ascii) :
  accelerators answers ini →
  first_unused word ini c →
  accelerators (answers ++ [word]) (ini ++ [Str.lower_char c]).
Proof.
  intros [Hlen Hacc] Hc. split.
  - rewrite !length_app. simpl. lia.
  - intros i w Hi.
    destruct (decide (i < length answers)) as [Hlt|Hge].
    + rewrite lookup_app_l in Hi by assumption.
      destruct (Hacc i w Hi) as (d & Hd & Hl). exists d.
      rewrite take_app_le by lia. split; [assumption|].
      rewrite lookup_app_l by lia. assumption.
    + apply lookup_lt_Some in Hi as Hlt. rewrite length_app in Hlt.
      simpl in Hlt. assert (i = length answers) as -> by lia.
      rewrite list_lookup_middle in Hi by reflexivity. injection Hi as <-.
      exists c. rewrite <- Hlen, take_app_length.
      split; [assumption|]. now rewrite list_lookup_middle.
Qed.

Lemma accelerators_take (answers : list string) (ini : list ascii)
    (k : nat) :
  accelerators answers ini → accelerators (take k answers) (take k ini).
Proof.
  intros [Hlen Hacc]. split.
  - rewrite !length_take. lia.
  - intros i w Hi. apply lookup_take_Some in Hi as [Hi Hik].
    destruct (Hacc i w Hi) as (d & Hd & Hl). exists d.
    rewrite take_take, Nat.min_l by lia. split; [assumption|].
    rewrite lookup_take_lt by assumption. assumption.
Qed.

Lemma accelerators_unique (answers : list string) (ini ini' : list ascii) :
  accelerators answers ini → accelerators answers ini' → ini = ini'.
Proof.
  intros [Hlen Hacc] [Hlen' Hacc'].
  assert (∀ n, take n ini = take n ini') as H.
  { induction n as [|n IH]; [reflexivity|].
    destruct (answers !! n) as [w|] eqn:Hn.
    - destruct (Hacc n w Hn) as (d & Hd & Hl).
      destruct (Hacc' n w Hn) as (d' & Hd' & Hl').
      rewrite IH in Hd. rewrite (first_unused_functional _ _ _ _ Hd Hd') in Hl.
      rewrite (take_S_r _ _ _ Hl), (take_S_r _ _ _ Hl'). congruence.
    - apply lookup_ge_None in Hn.
      rewrite !take_ge by lia. rewrite !take_ge in IH by lia. assumption. }
  specialize (H (length ini)). rewrite take_ge in H by lia.
  rewrite take_ge in H by lia. assumption.
Qed.

Lemma accelerators_lower (answers : list string) (ini : list ascii)
    (x : ascii) :
  accelerators answers ini → x ∈ ini → Str.lower_char x = x.
Proof.
  intros [Hlen Hacc] [i Hi]%list_elem_of_lookup.
  destruct (answers !! i) as [w|] eqn:Hw.
  - destruct (Hacc i w Hw) as (d & _ & Hl). rewrite Hi in Hl.
    injection Hl as ->. apply lower_char_idemp.
  - apply lookup_ge_None in Hw. apply lookup_lt_Some in Hi. lia.
Qed.

Lemma accelerators_NoDup (answers : list string) (ini : list ascii) :
  accelerators answers ini → NoDup ini.
Proof.
  intros [Hlen Hacc]. apply NoDup_alt. intros i j x Hi Hj.
  assert (∀ i j, i < j → ini !! i = Some x → ini !! j = Some x → False) as H.
  { clear i j Hi Hj. intros i j Hij Hi Hj.
    destruct (answers !! j) as [w|] eqn:Hw.
    - destruct (Hacc j w Hw) as (d & (pre & post & _ & Hd & _) & Hl).
      rewrite Hj in Hl. injection Hl as ->. apply Hd.
      apply list_elem_of_lookup. exists i. rewrite lookup_take_lt; assumption.
    - apply lookup_ge_None in Hw. apply lookup_lt_Some in Hj. lia. }
  destruct (Nat.lt_trichotomy i j) as [Hlt|[Heq|Hgt]]; [|assumption|];
    exfalso; eauto.
Qed.

Lemma mnemonic_inv_init : mnemonic_inv [] (MnemonicState "" "" None None).
Proof. split; [reflexivity | apply accelerators_nil | congruence]. Qed.

Lemma eqb_app_char (s : string) (c : ascii) :
  String.eqb (s +:+ Str.of_char c) s = false.
Proof.
  apply String.eqb_neq. intros E. apply (f_equal String.length) in E.
  rewrite str_length_app in E. simpl in E. lia.
Qed.

Lemma mnemonic_step_spec (done : list string) (st : mnemonic_state)
    (word : string) (w : world) :
  mnemonic_inv done st →
  match scan_word word (initialism st) with
  | None =>
      mnemonic_step (length done) word st w = (Exits 1, emit undetermined w)
  | Some c =>
      ∃ st', mnemonic_step (length done) word st w = (Returns st', w)
             ∧ mnemonic_inv (done ++ [word]) st'
  end.
Proof.
  intros [Hprev Hacc Hprompt]. unfold mnemonic_step.
  destruct (scan_word word (initialism st)) as [c|] eqn:Hscan.
  - rewrite Hprev. change (Str.lower (Str.of_char c))
      with (Str.of_char (Str.lower_char c)). rewrite eqb_app_char.
    apply scan_word_first_unused in Hscan.
    assert (∀ p, mnemonic_inv (done ++ [word])
      (MnemonicState (initialism st +:+ Str.of_char (Str.lower_char c))
         (initialism st +:+ Str.of_char (Str.lower_char c)) (Some c)
         (Some p))) as Hinv.
    { intros p. split; simpl; [reflexivity| |eauto].
      rewrite chars_app. now apply accelerators_snoc. }
    destruct done as [|d done]; simpl.
    + eexists. split; [reflexivity|]. apply Hinv.
    + destruct Hprompt as [p Hp]; [discriminate|]. rewrite Hp.
      eexists. split; [reflexivity|]. apply Hinv.
  - rewrite Hprev, String.eqb_refl. reflexivity.
Qed.

Lemma mnemonic_loop_cons (word : string) (rest : list string) (n : nat)
    (st : mnemonic_state) (w : world) :
  mnemonic_loop (word :: rest) n st w
  = match mnemonic_step n word st w with
    | (Returns st', w') => mnemonic_loop rest (S n) st' w'
    | (Exits status, w') => (Exits status, w')
    | (Raises e, w') => (Raises e, w')
    end.
Proof. reflexivity. Qed.

Lemma mnemonic_loop_spec (rest done : list string) (st : mnemonic_state)
    (w : world) :
  mnemonic_inv done st →
  (∃ k word ini,
      rest !! k = Some word
      ∧ accelerators (done ++ take k rest) ini
      ∧ all_used word ini
      ∧ mnemonic_loop rest (length done) st w
        = (Exits 1, emit undetermined w))
  ∨ (∃ st',
      mnemonic_loop rest (length done) st w = (Returns st', w)
      ∧ mnemonic_inv (done ++ rest) st').
Proof.
  revert done st. induction rest as [|word rest IH]; intros done st Hinv.
  - right. exists st. rewrite app_nil_r. split; [reflexivity | assumption].
  - pose proof (mnemonic_step_spec done st word w Hinv) as Hstep.
    rewrite !mnemonic_loop_cons.
    destruct (scan_word word (initialism st)) as [c|] eqn:Hscan.
    + destruct Hstep as (st' & -> & Hinv').
      replace (S (length done)) with (length (done ++ [word]))
        by (rewrite length_app; simpl; lia).
      destruct (IH _ _ Hinv') as [(k & wd & ini & Hk & Hacc & Hall & E)|
                                  (st'' & E & Hinv'')].
      * left. exists (S k), wd, ini. rewrite <- app_assoc in Hacc. auto.
      * right. exists st''. rewrite <- app_assoc in Hinv''. auto.
    + rewrite Hstep. left. exists 0, word, (chars (initialism st)).
      rewrite app_nil_r. apply scan_word_all_used in Hscan.
      destruct Hinv. auto.
Qed.

(** ** C2: accelerators are assigned first-free, or the process stops *)

(** C2: [tidy_answer] gives each word the first of its characters, case
    ignored, that no earlier word was given. If some word has none left,
    the process prints the diagnostic and exits with status 1 (nothing
    is read); otherwise every word has exactly one accelerator, no two the
    same, and the prompt is shown. *)
Theorem tidy_answer_mnemonics (answers : list string) (level : nat)
    (w : world) :
  (∃ k word ini,
      answers !! k = Some word
      ∧ accelerators (take k answers) ini
      ∧ all_used word ini
      ∧ tidy_answer answers level w = (Exits 1, emit undetermined w))
  ∨ (∃ st,
      accelerators answers (chars (initialism st))
      ∧ NoDup (chars (initialism st))
      ∧ length (chars (initialism st)) = length answers
      ∧ tidy_answer answers level w = read_answer answers level st w).
Proof.
  unfold tidy_answer, mbind, io_bind.
  destruct (mnemonic_loop_spec answers [] _ w mnemonic_inv_init)
    as [(k & wd & ini & Hk & Hacc & Hall & E)|(st & E & Hinv)];
    simpl in E; rewrite E.
  - left. exists k, wd, ini. auto.
  - right. exists st. destruct Hinv as [_ Hacc _]. simpl in Hacc.
    split; [assumption|]. split; [eapply accelerators_NoDup; eassumption|].
    split; [apply Hacc | reflexivity].
Qed.

(** ** C7: resolving the line typed at a menu *)

Lemma resolve_loop_skip (answers : list string) (rest : string) (index : nat)
    (a0 : ascii) (tl : string) (w : world) :
  a0 ∉ chars rest →
  resolve_loop answers rest index (String a0 tl) w
  = (Returns (String a0 tl), w).
Proof.
  revert index. induction rest as [|c rest IH]; intros index Hnot.
  - reflexivity.
  - simpl in *. apply not_elem_of_cons in Hnot as [Hne Hnot].
    destruct (Ascii.eqb_spec c a0) as [->|_]; [congruence|]. now apply IH.
Qed.

Lemma resolve_loop_found (answers : list string) (s : string)
    (index i : nat) (c w0 : ascii) (tl tl0 : string) (w : world) :
  chars s !! i = Some c →
  (∀ j, j < i → chars s !! j ≠ Some c) →
  answers !! (index + i) = Some (String w0 tl0) →
  w0 ∉ drop (S i) (chars s) →
  resolve_loop answers s index (String c tl) w
  = (Returns (String w0 tl0), w).
Proof.
  revert index i. induction s as [|d s IH]; intros index i Hi Hfirst Hw Hw0.
  - destruct i; discriminate.
  - destruct i as [|i]; simpl in *.
    + injection Hi as ->. rewrite Ascii.eqb_refl.
      rewrite Nat.add_0_r in Hw. rewrite Hw.
      apply resolve_loop_skip. assumption.
    + destruct (Ascii.eqb_spec d c) as [->|_].
      * exfalso. apply (Hfirst 0); [lia | reflexivity].
      * apply (IH (S index) i); auto.
        -- intros j Hj. apply (Hfirst (S j)). lia.
        -- now rewrite Nat.add_succ_comm.
Qed.

(** The first character of a word never occurs among the accelerators
    given after the word's own. *)
Lemma accelerator_word_head (answers : list string) (ini : list ascii)
    (i : nat) (word : string) (c : ascii) :
  accelerators answers ini →
  ini !! i = Some c →
  answers !! i = Some word →
  ∃ w0 tl, word = String w0 tl ∧ w0 ∉ drop (S i) ini.
Proof.
  intros Hacc Hi Hw.
  pose proof (accelerators_NoDup _ _ Hacc) as Hnd.
  rewrite <- (take_drop_middle _ _ _ Hi) in Hnd.
  apply NoDup_app in Hnd as (_ & Hdisj & [Hc _]%NoDup_cons).
  destruct (proj2 Hacc i word Hw) as (c' & (pre & post & E & _ & Hpre) & Hl).
  rewrite Hi in Hl. injection Hl as ->.
  assert (∀ x, x ∈ drop (S i) ini → Str.lower_char x = x) as Hlow.
  { intros x Hx. eapply accelerators_lower; [eassumption|].
    eapply subseteq_drop; eassumption. }
  destruct word as [|w0 tl]; [destruct pre; discriminate|].
  exists w0, tl. split; [reflexivity|]. intros Hin.
  destruct pre as [|d pre]; simpl in E; injection E as -> _.
  - apply Hc. rewrite (Hlow _ Hin). assumption.
  - apply (Hdisj (Str.lower_char d)).
    + apply Hpre. now left.
    + right. rewrite (Hlow _ Hin). assumption.
Qed.

(** With accelerators assigned, the mnemonic loop ends with them and with
    a prompt to show. *)
Lemma mnemonic_loop_accelerators (answers : list string)
    (ini : list ascii) (w : world) :
  answers ≠ [] →
  accelerators answers ini →
  ∃ st prompt,
    mnemonic_loop answers 0 (MnemonicState "" "" None None) w
    = (Returns st, w)
    ∧ chars (initialism st) = ini
    ∧ prompt_text st = Some prompt.
Proof.
  intros Hne Hacc.
  destruct (mnemonic_loop_spec answers [] _ w mnemonic_inv_init)
    as [(k & wd & ini' & Hk & Hacc' & Hall & E)|(st & E & Hinv)];
    simpl in *.
  - exfalso. apply (accelerators_take _ _ k) in Hacc as Hacck.
    rewrite (accelerators_unique _ _ _ Hacc' Hacck) in Hall.
    destruct (proj2 Hacc k wd Hk) as (c & Hc & _).
    eapply first_unused_not_all_used; eassumption.
  - destruct Hinv as [_ Hacc' Hp]. destruct (Hp Hne) as [p Hp'].
    exists st, p. split; [assumption|]. split; [|assumption].
    eapply accelerators_unique; eassumption.
Qed.

Lemma index_of_Some (c : ascii) (l : list ascii) (i : nat) :
  index_of c l = Some i → l !! i = Some c ∧ ∀ j, j < i → l !! j ≠ Some c.
Proof.
  revert i. induction l as [|d l IH]; intros i; simpl; [discriminate|].
  destruct (Ascii.eqb_spec d c) as [->|Hne].
  - intros [= <-]. split; [reflexivity | lia].
  - destruct (index_of c l) as [k|]; [|discriminate]. intros [= <-].
    destruct (IH k eq_refl) as [Hk Hfirst]. split; [assumption|].
    intros [|j] Hj; simpl; [congruence | apply Hfirst; lia].
Qed.

Lemma index_of_None (c : ascii) (l : list ascii) :
  index_of c l = None ↔ c ∉ l.
Proof.
  induction l as [|d l IH]; simpl.
  - split; [intros _ H; inversion H | reflexivity].
  - rewrite not_elem_of_cons. destruct (Ascii.eqb_spec d c) as [->|Hne].
    + split; [discriminate | intros [? _]; congruence].
    + destruct (index_of c l); simpl.
      * split; [discriminate|]. intros [_ H]. now apply IH in H.
      * split; [|reflexivity]. intros _. split; [congruence | now apply IH].
Qed.

Lemma index_of_lookup (c : ascii) (l : list ascii) (i : nat) :
  NoDup l → l !! i = Some c → index_of c l = Some i.
Proof.
  intros Hnd Hi. destruct (index_of c l) as [k|] eqn:E.
  - apply index_of_Some in E as [Hk _].
    f_equal. eapply NoDup_lookup; eassumption.
  - apply index_of_None in E. exfalso. apply E.
    apply list_elem_of_lookup. eauto.
Qed.

(** A run of [tidy_answer] when every word has its accelerator: the menu
    is shown, one line is taken, and the result is its [resolution]. *)
Lemma tidy_answer_run (answers : list string) (level : nat) (w : world)
    (line : string) (rest : list string) (ini : list ascii) :
  answers ≠ [] →
  accelerators answers ini →
  stdin w = line :: rest →
  ∃ shown,
    tidy_answer answers level w
    = (Returns (resolution answers ini (Str.lower (Str.strip line))),
       after_menu w shown rest).
Proof.
  intros Hne Hacc Hin.
  destruct (mnemonic_loop_accelerators answers ini w Hne Hacc)
    as (st & prompt & E & Hini & Hp).
  exists (Str.times INDENT level +:+ prompt +:+ ": ").
  unfold tidy_answer, mbind, io_bind. rewrite E.
  unfold read_answer. rewrite Hp. unfold mbind, io_bind, input.
  rewrite Hin. cbv iota beta. fold (after_menu w).
  unfold resolution.
  destruct (Str.lower (Str.strip line)) as [|c tl] eqn:Ea; [reflexivity|].
  destruct (index_of c ini) as [i|] eqn:Ei.
  - apply index_of_Some in Ei as [Hi Hfirst].
    assert (Str.contains c (initialism st) = true) as ->.
    { apply contains_elem. rewrite Hini. apply list_elem_of_lookup. eauto. }
    change (negb true) with false. cbv iota.
    destruct (answers !! i) as [word|] eqn:Hw.
    + destruct (accelerator_word_head _ _ _ _ _ Hacc Hi Hw)
        as (w0 & tl0 & -> & Hw0).
      apply resolve_loop_found with (i := i); rewrite ?Hini; auto.
    + apply lookup_ge_None in Hw. apply lookup_lt_Some in Hi.
      destruct Hacc as [Hlen _]. lia.
  - apply index_of_None in Ei.
    assert (Str.contains c (initialism st) = false) as ->.
    { apply contains_not_elem. now rewrite Hini. }
    reflexivity.
Qed.

(** C7: an empty line (or one of white space only) resolves to the empty
    string; any other line resolves, by its first character in lower
    case, to the one word that has this accelerator, and to the empty
    string when no word has it. *)
Theorem tidy_answer_resolves (answers : list string) (level : nat)
    (w : world) (line : string) (rest : list string) (ini : list ascii) :
  answers ≠ [] →
  accelerators answers ini →
  stdin w = line :: rest →
  match Str.lower (Str.strip line) with
  | EmptyString => (tidy_answer answers level w).1 = Returns ""
  | String c _ =>
      (∀ i word, ini !! i = Some c → answers !! i = Some word →
         (tidy_answer answers level w).1 = Returns word)
      ∧ (∀ i j, ini !! i = Some c → ini !! j = Some c → i = j)
      ∧ (c ∉ ini → (tidy_answer answers level w).1 = Returns "")
  end.
Proof.
  intros Hne Hacc Hin.
  destruct (tidy_answer_run answers level w line rest ini Hne Hacc Hin)
    as [shown ->].
  pose proof (accelerators_NoDup _ _ Hacc) as Hnd.
  unfold resolution.
  destruct (Str.lower (Str.strip line)) as [|c tl]; [reflexivity|].
  split; [|split].
  - intros i word Hi Hw.
    rewrite (index_of_lookup _ _ _ Hnd Hi), Hw. reflexivity.
  - intros i j. now apply NoDup_lookup.
  - intros Hnot. apply index_of_None in Hnot. rewrite Hnot. reflexivity.
Qed.

Lemma tidy_answer_resolves_witness :
  (tidy_answer ["default"; "back"; "quit"] 0
     (World [" B"] [] ∅ None)).1 = Returns "back".
Proof.
  pose proof (tidy_answer_resolves ["default"; "back"; "quit"] 0
    (World [" B"] [] ∅ None) " B" [] (chars "dbq")) as H.
  simpl in H. apply H with (i := 1); try reflexivity; try discriminate.
  split; [reflexivity|]. intros [|[|[|i]]] word [= <-].
  - exists "d"%char. split; [|reflexivity].
    exists [], (chars "efault"). split; [reflexivity|].
    split; [inversion 1 | inversion 1].
  - exists "b"%char. split; [|reflexivity].
    exists [], (chars "ack"). split; [reflexivity|]. split.
    + simpl. intros [H1|H1]%elem_of_cons; [discriminate | inversion H1].
    + inversion 1.
  - exists "q"%char. split; [|reflexivity].
    exists [], (chars "uit"). split; [reflexivity|]. split.
    + simpl. intros [H1|[H1|H1]%elem_of_cons]%elem_of_cons;
        [discriminate | discriminate | inversion H1].
    + inversion 1.
Defined.

(** ** The document store *)

Lemma lookup_store {A} (key : string) (a b : A) (l : list (string * A)) :
  Cfg.lookup key l = Some b → Cfg.lookup key (Cfg.store key a l) = Some a.
Proof.
  induction l as [|[k c] l IH]; simpl; [discriminate|].
  destruct (String.eqb k key) eqn:E; simpl; rewrite E; auto.
Qed.

Lemma lookup_remove {A} (key : string) (l : list (string * A)) :
  Cfg.lookup key (Cfg.remove key l) = None.
Proof.
  unfold Cfg.remove. induction l as [|[k c] l IH]; simpl; [reflexivity|].
  destruct (String.eqb k key) eqn:E.
  - rewrite filter_cons_False; [assumption|]. simpl. rewrite E. auto.
  - rewrite filter_cons_True by (simpl; rewrite E; auto).
    simpl. rewrite E. assumption.
Qed.

Lemma has_option_remove_option (cfg : config) (section option : string) :
  Cfg.has_option (Cfg.remove_option cfg section option) section option
  = false.
Proof.
  unfold Cfg.has_option, Cfg.remove_option.
  destruct (Cfg.lookup section cfg) as [body|] eqn:E.
  - erewrite lookup_store by eassumption. rewrite lookup_remove.
    apply bool_decide_eq_false. intros [? ?]. discriminate.
  - rewrite E. reflexivity.
Qed.

Lemma delete_option_missing (cfg : config) (section option path : string)
    (w : world) :
  Cfg.has_option cfg section option = false →
  delete_option cfg section option path w
  = (Returns (cfg, false), emit (does_not_exist option) w).
Proof. intros H. unfold delete_option. rewrite H. reflexivity. Qed.

(** ** C8: deleting an absent option changes nothing *)

(** C8: deleting (or defaulting) an option that its section does not hold
    prints that it does not exist and returns [False]; the document in
    memory and the files on disk stay as they were. Whatever a first
    delete did, a second one right after it is such a no-op. *)
Theorem delete_option_absent (cfg : config) (section option path : string)
    (w : world) :
  Cfg.has_option cfg section option = false →
  delete_option cfg section option path w
  = (Returns (cfg, false), emit (does_not_exist option) w)
  ∧ disk (emit (does_not_exist option) w) = disk w
  ∧ ∀ cfg0 w0 cfg1 deleted w1,
      delete_option cfg0 section option path w0
      = (Returns (cfg1, deleted), w1) →
      delete_option cfg1 section option path w1
      = (Returns (cfg1, false), emit (does_not_exist option) w1).
Proof.
  intros H. split; [now apply delete_option_missing|].
  split; [reflexivity|].
  intros cfg0 w0 cfg1 deleted w1 E. apply delete_option_missing.
  unfold delete_option in E.
  destruct (Cfg.has_option cfg0 section option) eqn:H0.
  - unfold mbind, io_bind in E.
    destruct (write_config _ path w0) as [[[]|?|?] w']; try discriminate.
    injection E as <- _ _. apply has_option_remove_option.
  - injection E as <- _ _. assumption.
Qed.

Lemma delete_option_absent_witness :
  delete_option sample_config "General" "timeout" "config.ini"
    (World [] [] ∅ None)
  = (Returns (sample_config, false),
     World [] ["timeout option does not exist."] ∅ None).
Proof.
  apply (delete_option_absent sample_config "General" "timeout"
           "config.ini" (World [] [] ∅ None)).
  reflexivity.
Defined.

(** ** Running the console monad *)

Lemma bind_returns {A B} (m : IO A) (k : A → IO B) (w w' : world) (a : A) :
  m w = (Returns a, w') → (m ≫= k) w = k a w'.
Proof. intros E. unfold mbind, io_bind. now rewrite E. Qed.

Lemma bind_exits {A B} (m : IO A) (k : A → IO B) (w w' : world) (n : Z) :
  m w = (Exits n, w') → (m ≫= k) w = (Exits n, w').
Proof. intros E. unfold mbind, io_bind. now rewrite E. Qed.

Lemma bind_raises {A B} (m : IO A) (k : A → IO B) (w w' : world)
    (e : exception) :
  m w = (Raises e, w') → (m ≫= k) w = (Raises e, w').
Proof. intros E. unfold mbind, io_bind. now rewrite E. Qed.

(** ** C3: decoding is total *)


(** ** The menus of the option editor *)

Lemma accelerators_of_loop (answers : list string) (ini : list ascii) :
  match (mnemonic_loop answers 0 (MnemonicState "" "" None None)
           (World [] [] ∅ None)).1 with
  | Returns st => chars (initialism st) = ini
  | _ => False
  end →
  accelerators answers ini.
Proof.
  destruct (mnemonic_loop_spec answers [] _ (World [] [] ∅ None)
              mnemonic_inv_init)
    as [(k & wd & ini' & _ & _ & _ & E)|(st' & E & Hinv)];
    simpl in E; rewrite E; simpl; [contradiction|].
  intros <-. now destruct Hinv.
Qed.

(** Accelerators of a given menu, found by running the loop. *)
Ltac menu_accelerators :=
  apply accelerators_of_loop; vm_compute; reflexivity.






(** ** C5: toggling a boolean option *)



(** ** The diff reconciler *)

Lemma bind_inversion {A B} (m : IO A) (k : A → IO B) (w w'' : world)
    (b : B) :
  (m ≫= k) w = (Returns b, w'') →
  ∃ a w', m w = (Returns a, w') ∧ k a w' = (Returns b, w'').
Proof.
  unfold mbind, io_bind. destruct (m w) as [[a| |] w']; try discriminate.
  eauto.
Qed.







(** ** C6: reverting a differing option to its default *)



(** ** The numeric prompt *)

Lemma prompt_for_input_run (prompt : string) (level : nat) (value : string)
    (w : world) (line : string) (rest : list string) :
  stdin w = line :: rest →
  ∃ shown,
    prompt_for_input prompt level value NoValues w
    = (Returns (entered value line), after_menu w shown rest).
Proof.
  intros Hin. unfold prompt_for_input, entered.
  change (values_truthy NoValues) with false.
  destruct (Str.truthy value); cbv zeta iota beta; eexists;
    unfold mbind, io_bind, pt_prompt, input; rewrite Hin; reflexivity.
Qed.

Lemma SFcompare_refl (x : Num.float) :
  x ≠ S754_nan → SFcompare x x = Some Eq.
Proof.
  destruct x as [[]|[]| |[] m e]; simpl; try congruence; intros _.
  - rewrite Z.compare_refl. f_equal.
    fold (Pos.compare m m). now rewrite Pos.compare_refl.
  - rewrite Z.compare_refl. f_equal.
    fold (Pos.compare m m). now rewrite Pos.compare_refl.
Qed.

Lemma SFcompare_Gt_Lt (x y : Num.float) :
  SFcompare x y = Some Gt → SFcompare y x = Some Lt.
Proof.
  destruct x as [[]|[]| |[] m e], y as [[]|[]| |[] m' e']; simpl;
    try congruence.
  all: rewrite (Z.compare_antisym e e'); destruct (e ?= e')%Z; simpl;
    try congruence.
  all: change (Pos.compare_cont Eq m' m) with (Pos.compare m' m);
    change (Pos.compare_cont Eq m m') with (Pos.compare m m');
    rewrite (Pos.compare_antisym m m');
    destruct (Pos.compare m m'); simpl; congruence.
Qed.

Lemma le_not_nan (x y : Num.float) :
  Num.le x y → x ≠ S754_nan ∧ y ≠ S754_nan.
Proof.
  unfold Num.le, SFleb.
  destruct x as [[]|[]| |[] m e], y as [[]|[]| |[] m' e']; simpl;
    intros H; split; congruence.
Qed.

(** A float clamped between ordered bounds lies between them, whatever it
    was, a NaN included. *)
Lemma clamp_float_between (lo hi x : Num.float) :
  Num.le lo hi →
  Num.le lo (Num.min_float hi (Num.max_float lo x))
  ∧ Num.le (Num.min_float hi (Num.max_float lo x)) hi.
Proof.
  intros Hle. destruct (le_not_nan _ _ Hle) as [Hlo Hhi].
  assert (Num.le lo (Num.max_float lo x)) as Hm.
  { unfold Num.max_float, Num.gt.
    destruct (SFcompare x lo) as [[]|] eqn:E;
      try (unfold Num.le, SFleb; now rewrite SFcompare_refl).
    unfold Num.le, SFleb. now rewrite (SFcompare_Gt_Lt _ _ E). }
  unfold Num.min_float, Num.lt.
  destruct (SFcompare (Num.max_float lo x) hi) as [[]|] eqn:E.
  - split; [assumption|]. unfold Num.le, SFleb. now rewrite SFcompare_refl.
  - split; [assumption|]. unfold Num.le, SFleb. now rewrite E.
  - split; [assumption|]. unfold Num.le, SFleb. now rewrite SFcompare_refl.
  - split; [assumption|]. unfold Num.le, SFleb. now rewrite SFcompare_refl.
Qed.

Lemma read_int_clamped_run (float_str : Num.float → string) (depth : nat)
    (prompt value : string) (lo hi : Z) (w : world) (line : string)
    (rest : list string) :
  stdin w = line :: rest →
  ∃ shown,
    read_int_clamped float_str (S depth) prompt value lo hi w
    = match Num.py_float (entered value line) with
      | None =>
          (Exits 2,
           emit (not_a_float (entered value line)) (after_menu w shown rest))
      | Some x =>
          match Num.py_int x with
          | inr n =>
              (Returns (Num.str_int (Z.min hi (Z.max lo n))),
               after_menu w shown rest)
          | inl ValueError =>
              (Exits 2, emit nan_to_integer (after_menu w shown rest))
          | inl e => (Raises e, after_menu w shown rest)
          end
      end.
Proof.
  intros Hin.
  destruct (prompt_for_input_run prompt 0 value w line rest Hin)
    as [shown Hrun].
  exists shown. unfold read_int_clamped. cbn [modify_value].
  rewrite (bind_returns _ _ _ _ _ Hrun). cbn [default].
  unfold to_int.
  destruct (Num.py_float (entered value line)) as [x|]; [|reflexivity].
  destruct (Num.py_int x) as [[]|n]; reflexivity.
Qed.

Lemma read_float_clamped_run (float_str : Num.float → string) (depth : nat)
    (prompt value : string) (lo hi : Num.float) (w : world) (line : string)
    (rest : list string) :
  stdin w = line :: rest →
  ∃ shown,
    read_float_clamped float_str (S depth) prompt value lo hi w
    = match Num.py_float (entered value line) with
      | None =>
          (Exits 2,
           emit (not_a_float (entered value line)) (after_menu w shown rest))
      | Some x =>
          (Returns (float_str (Num.min_float hi (Num.max_float lo x))),
           after_menu w shown rest)
      end.
Proof.
  intros Hin.
  destruct (prompt_for_input_run prompt 0 value w line rest Hin)
    as [shown Hrun].
  exists shown. unfold read_float_clamped. cbn [modify_value].
  rewrite (bind_returns _ _ _ _ _ Hrun). cbn [default].
  unfold to_float.
  destruct (Num.py_float (entered value line)) as [x|]; reflexivity.
Qed.

(** ** C4: the clamped numeric prompt *)

(** C4: with both limits integers the entry is read as a float, cut to an
    integer and clamped between the limits; with both limits floats it is
    read as a float and clamped. An entry that is no number at all, or a
    NaN where an integer is wanted, prints the reason and exits with
    status 2. The one entry left out is an infinity where an integer is
    wanted: [int] raises [OverflowError], which nothing catches. *)
Theorem modify_value_clamps (float_str : Num.float → string) (depth : nat)
    (prompt value : string) (lo hi : Z) (flo fhi : Num.float) (w : world)
    (line : string) (rest : list string) :
  stdin w = line :: rest →
  (lo <= hi)%Z →
  Num.le flo fhi →
  let ri := (read_int_clamped float_str (S depth) prompt value lo hi w).1 in
  let rf :=
    (read_float_clamped float_str (S depth) prompt value flo fhi w).1 in
  match Num.py_float (entered value line) with
  | None => ri = Exits 2 ∧ rf = Exits 2
  | Some x =>
      (∃ y, rf = Returns (float_str y) ∧ Num.le flo y ∧ Num.le y fhi)
      ∧ match x with
        | S754_nan => ri = Exits 2
        | S754_infinity _ => ri = Raises OverflowError
        | _ =>
            ∃ n m, Num.py_int x = inr n
                   ∧ m = Z.min hi (Z.max lo n)
                   ∧ (lo <= m <= hi)%Z
                   ∧ ri = Returns (Num.str_int m)
        end
  end.
Proof.
  intros Hin Hle Hfle ri rf.
  destruct (read_int_clamped_run float_str depth prompt value lo hi w line
              rest Hin) as [shown Hi].
  destruct (read_float_clamped_run float_str depth prompt value flo fhi w
              line rest Hin) as [shown' Hf].
  subst ri rf. rewrite Hi, Hf.
  destruct (Num.py_float (entered value line)) as [x|]; [|now split].
  split.
  - eexists. split; [reflexivity|]. now apply clamp_float_between.
  - destruct x as [s|s| |s m e]; cbn [Num.py_int]; try reflexivity.
    + exists 0%Z, (Z.min hi (Z.max lo 0)).
      repeat split; try reflexivity; lia.
    + eexists _, _. split; [reflexivity|]. split; [reflexivity|].
      split; [lia | reflexivity].
Qed.

Lemma modify_value_clamps_witness :
  (read_int_clamped no_float_str 1000 "x" "" 0 10
     (World ["50"] [] ∅ None)).1 = Returns "10"
  ∧ (read_int_clamped no_float_str 1000 "x" "" 0 10
       (World ["-5"] [] ∅ None)).1 = Returns "0"
  ∧ (read_int_clamped no_float_str 1000 "x" "50" 0 10
       (World [""] [] ∅ None)).1 = Returns "10"
  ∧ (read_int_clamped no_float_str 1000 "x" "" 0 10
       (World ["ten"] [] ∅ None)).1 = Exits 2
  ∧ (read_int_clamped no_float_str 1000 "x" "" 0 10
       (World ["nan"] [] ∅ None)).1 = Exits 2
  ∧ (read_int_clamped no_float_str 1000 "x" "" 0 10
       (World ["inf"] [] ∅ None)).1 = Raises OverflowError.
Proof.
  assert (Num.le (S754_zero false) (S754_zero false)) as Hz by reflexivity.
  split; [|split; [|split; [|split; [|split]]]].
  - pose proof (modify_value_clamps no_float_str 999 "x" "" 0 10 _ _
                  (World ["50"] [] ∅ None) "50" [] eq_refl
                  ltac:(lia) Hz) as H.
    vm_compute in H. destruct H as [_ (n & m & Hn & Hm & _ & H)].
    injection Hn as <-. subst m. exact H.
  - pose proof (modify_value_clamps no_float_str 999 "x" "" 0 10 _ _
                  (World ["-5"] [] ∅ None) "-5" [] eq_refl
                  ltac:(lia) Hz) as H.
    vm_compute in H. destruct H as [_ (n & m & Hn & Hm & _ & H)].
    injection Hn as <-. subst m. exact H.
  - pose proof (modify_value_clamps no_float_str 999 "x" "50" 0 10 _ _
                  (World [""] [] ∅ None) "" [] eq_refl
                  ltac:(lia) Hz) as H.
    vm_compute in H. destruct H as [_ (n & m & Hn & Hm & _ & H)].
    injection Hn as <-. subst m. exact H.
  - pose proof (modify_value_clamps no_float_str 999 "x" "" 0 10 _ _
                  (World ["ten"] [] ∅ None) "ten" [] eq_refl
                  ltac:(lia) Hz) as H.
    apply H.
  - pose proof (modify_value_clamps no_float_str 999 "x" "" 0 10 _ _
                  (World ["nan"] [] ∅ None) "nan" [] eq_refl
                  ltac:(lia) Hz) as H.
    apply H.
  - pose proof (modify_value_clamps no_float_str 999 "x" "" 0 10 _ _
                  (World ["inf"] [] ∅ None) "inf" [] eq_refl
                  ltac:(lia) Hz) as H.
    apply H.
Defined.

(** ** The round trip through [repr] and the reference evaluation *)


(** *** Scanning what [repr] writes *)










Lemma forallb_elem {A} (f : A → bool) (l : list A) (x : A) :
  forallb f l = true → x ∈ l → f x = true.
Proof.
  intros H Hx. rewrite forallb_forall in H. apply H.
  now apply list_elem_of_In.
Qed.




(** *** Parsing the tokens of a value *)

Lemma run_app (st : Literal.state) (ts1 ts2 : list Literal.token) :
  Literal.run st (ts1 ++ ts2)
  = st' ← Literal.run st ts1; Literal.run st' ts2.
Proof.
  revert st. induction ts1 as [|t ts1 IH]; intros st; simpl; [reflexivity|].
  destruct (Literal.step st t) as [st'|]; simpl; [apply IH | reflexivity].
Qed.











(** ** C1: the round trip of stored values *)




(** ** More on [tidy_answer] *)

Lemma resolution_member (answers : list string) (ini : list ascii)
    (answer : string) :
  resolution answers ini answer = ""
  ∨ resolution answers ini answer ∈ answers.
Proof.
  unfold resolution. destruct answer as [|c tl]; [now left|].
  destruct (index_of c ini) as [i|]; [|now left].
  destruct (answers !! i) as [word|] eqn:E; [|now left].
  right. apply list_elem_of_lookup. eauto.
Qed.

(** X1: a call of [tidy_answer] that returns has taken exactly one line
    from the console, has left the files alone, and returns the empty
    string or one of the answers it was given. *)
Theorem tidy_answer_member (answers : list string) (level : nat)
    (w w' : world) (r : string) :
  tidy_answer answers level w = (Returns r, w') →
  (r = "" ∨ r ∈ answers)
  ∧ (∃ line, stdin w = line :: stdin w')
  ∧ disk w' = disk w.
Proof.
  intros E.
  destruct (mnemonic_loop_spec answers [] _ w mnemonic_inv_init)
    as [(k & wd & ini & _ & _ & _ & E')|(st & E' & Hinv)]; simpl in E'.
  { unfold tidy_answer in E. rewrite (bind_exits _ _ _ _ _ E') in E.
    discriminate. }
  destruct answers as [|a answers].
  { unfold tidy_answer in E. simpl in E'. injection E' as <-.
    discriminate. }
  destruct (stdin w) as [|line rest] eqn:Hin.
  { unfold tidy_answer in E. rewrite (bind_returns _ _ _ _ _ E') in E.
    unfold read_answer in E.
    destruct (prompt_text st); [|discriminate].
    unfold mbind, io_bind, input in E. rewrite Hin in E. discriminate. }
  destruct Hinv as [_ Hacc _]. simpl in Hacc.
  destruct (tidy_answer_run (a :: answers) level w line rest _
              ltac:(discriminate) Hacc Hin) as [shown Hrun].
  rewrite Hrun in E. injection E as <- <-.
  split; [apply resolution_member|]. split; [|reflexivity].
  exists line. reflexivity.
Qed.

Lemma tidy_answer_member_witness :
  ("quit" = "" ∨ "quit" ∈ ["default"; "back"; "quit"])
  ∧ (∃ line, ["q"; "next"] = line :: ["next"])
  ∧ (∅ : gmap string config) = ∅.
Proof.
  apply (tidy_answer_member ["default"; "back"; "quit"] 0
           (World ["q"; "next"] [] ∅ None)
           (World ["next"]
              [ANSI_UNDERLINE +:+ "d" +:+ ANSI_RESET +:+ "efault/"
               +:+ ANSI_UNDERLINE +:+ "b" +:+ ANSI_RESET +:+ "ack/"
               +:+ ANSI_UNDERLINE +:+ "q" +:+ ANSI_RESET +:+ "uit: "]
              ∅ None) "quit").
  vm_compute. reflexivity.
Defined.

(** ** More on [modify_value] *)

Lemma prompt_for_input_returns (prompt : string) (level : nat)
    (value : string) (all_values : values) (w w' : world) (r : string) :
  prompt_for_input prompt level value all_values w = (Returns r, w') →
  ∃ line shown,
    stdin w = line :: stdin w'
    ∧ w' = after_menu w shown (stdin w')
    ∧ (r = Str.strip line ∨ (Str.strip line = "" ∧ r = value)).
Proof.
  unfold prompt_for_input.
  set (p1 := Str.times INDENT level +:+ prompt +:+ " " +:+ ANSI_CURRENT
             +:+ value +:+ ANSI_RESET +:+ ": ").
  set (p2 := Str.times INDENT level +:+ prompt +:+ ": ").
  destruct (stdin w) as [|line rest] eqn:Hin.
  { destruct (values_truthy all_values), (Str.truthy value);
      unfold mbind, io_bind, pt_prompt, input; rewrite Hin; discriminate. }
  intros E. exists line.
  destruct (values_truthy all_values), (Str.truthy value);
    unfold mbind, io_bind, pt_prompt, input, mret, io_ret in E;
    rewrite Hin in E; injection E as <- <-; eexists;
    (split; [reflexivity|]); (split; [reflexivity|]);
    unfold Str.or; destruct (Str.strip line); simpl; auto.
Qed.

(** The test [all_values != ('None',)] of [modify_value]. *)
Lemma not_none_tuple (all_values : values) :
  all_values ≠ TupleValues ["None"] →
  match all_values with
  | TupleValues ["None"] => true
  | _ => false
  end = false.
Proof.
  intros Hne.
  destruct all_values as [|l|[|a l]]; try reflexivity.
  destruct a as [|c a]; [reflexivity|].
  destruct c as [[] [] [] [] [] [] [] []]; try reflexivity.
  destruct a as [|c a]; [reflexivity|].
  destruct c as [[] [] [] [] [] [] [] []]; try reflexivity.
  destruct a as [|c a]; [reflexivity|].
  destruct c as [[] [] [] [] [] [] [] []]; try reflexivity.
  destruct a as [|c a]; [reflexivity|].
  destruct c as [[] [] [] [] [] [] [] []]; try reflexivity.
  destruct a as [|c a]; [|reflexivity].
  destruct l as [|b l]; [congruence | reflexivity].
Qed.

(** X2: whatever is typed, a value that [modify_value] returns when a
    list of allowed values is given (other than the tuple [('None',)])
    is one of the allowed values. *)
Theorem modify_value_allowed (float_str : Num.float → string) (depth : nat)
    (prompt : string) (level : nat) (value : string) (all_values : values)
    (limits : Datatypes.option (limit * limit)) (w w' : world) (r : string) :
  modify_value float_str depth prompt level value all_values limits w
  = (Returns r, w') →
  values_truthy all_values = true →
  all_values ≠ TupleValues ["None"] →
  r ∈ values_words all_values.
Proof.
  intros E Hv Hnone.
  assert (∀ x, rejected x all_values = false → x ∈ values_words all_values)
    as Hrej.
  { intros x Hx. unfold rejected in Hx. rewrite Hv in Hx.
    rewrite (not_none_tuple _ Hnone) in Hx.
    simpl in Hx. rewrite andb_true_r in Hx.
    apply negb_false_iff, bool_decide_eq_true in Hx. exact Hx. }
  revert prompt level value limits w E.
  induction depth as [|depth IH]; intros prompt level value limits w E;
    [discriminate|].
  cbn [modify_value] in E.
  apply bind_inversion in E as (entry & w1 & _ & E).
  destruct (default (NoLimit, NoLimit) limits) as [lo hi].
  apply bind_inversion in E as (n1 & w2 & _ & E).
  apply bind_inversion in E as (n2 & w3 & _ & E).
  match type of E with
  | (if rejected ?x _ then _ else _) _ = _ =>
      destruct (rejected x all_values) eqn:Hx
  end.
  - eapply IH. exact E.
  - injection E as <- _. apply Hrej. exact Hx.
Qed.

Lemma modify_value_allowed_witness :
  "sell" ∈ values_words (ListValues ["buy"; "sell"]).
Proof.
  apply (modify_value_allowed no_float_str 3 "side" 0 ""
           (ListValues ["buy"; "sell"]) None
           (World ["hold"; " sell "] [] ∅ None)
           (World [] ["side: ";
                      "side " +:+ ANSI_CURRENT +:+ ANSI_RESET +:+ ANSI_ERROR
                      +:+ "hold" +:+ ANSI_RESET +:+ ": "] ∅ None)
           "sell").
  - vm_compute. reflexivity.
  - reflexivity.
  - discriminate.
Defined.

(** ** More on [modify_option] *)



















(** ** More on [read_config] and [write_config] *)

Lemma encrypted_path_differs (path : string) : encrypted_path path ≠ path.
Proof.
  intros E. apply (f_equal String.length) in E.
  unfold encrypted_path in E. rewrite str_length_app in E. simpl in E. lia.
Qed.









(** X9: once the encrypted sibling of the path exists, the plain file is
    out of the game. Without the [gnupg] module both [read_config] and
    [write_config] raise [RuntimeError], even if a plain file is there
    to read; with the module, an empty key ring and no fingerprint in
    the document, [write_config] raises [IndexError]. A failed write
    changes nothing, and no write touches the plain file. *)
Theorem encrypted_config_errors (cfg base old : config) (path : string)
    (w : world) :
  disk w !! encrypted_path path = Some old →
  (gnupg w = None →
     read_config base path w = (Raises RuntimeError, w)
     ∧ write_config cfg path w = (Raises RuntimeError, w))
  ∧ (gnupg w = Some [] →
     Cfg.get cfg "General" "fingerprint" = None
     ∨ Cfg.get cfg "General" "fingerprint" = Some "" →
     write_config cfg path w = (Raises IndexError, w))
  ∧ ∀ o w',
      write_config cfg path w = (o, w') →
      disk w' !! path = disk w !! path ∧ (o ≠ Returns tt → w' = w).
Proof.
  intros Hold.
  assert (path_exists (encrypted_path path) w = (Returns true, w)) as Hex.
  { unfold path_exists. rewrite Hold.
    rewrite bool_decide_eq_true_2 by eauto. reflexivity. }
  split; [|split].
  - intros Hg. split.
    + unfold read_config. now rewrite Hold, Hg.
    + unfold write_config. rewrite (bind_returns _ _ _ _ _ Hex).
      unfold write_encrypted. now rewrite Hg.
  - intros Hg Hf. unfold write_config.
    rewrite (bind_returns _ _ _ _ _ Hex). unfold write_encrypted.
    rewrite Hg.
    assert ((if Cfg.has_option cfg "General" "fingerprint"
             then default "" (Cfg.get cfg "General" "fingerprint")
             else "") = "") as ->; [|reflexivity].
    destruct Hf as [Hf|Hf]; rewrite Hf; simpl;
      now destruct (Cfg.has_option cfg "General" "fingerprint").
  - intros o w'. unfold write_config.
    rewrite (bind_returns _ _ _ _ _ Hex). unfold write_encrypted.
    assert (disk (World (stdin w) (stdout w)
                    (<[encrypted_path path := cfg]> (disk w)) (gnupg w))
            !! path = disk w !! path) as Hplain.
    { simpl. apply lookup_insert_ne, encrypted_path_differs. }
    destruct (gnupg w) as [keys|]; [|now intros [= <- <-]].
    destruct (Str.truthy _).
    + unfold write_file. intros [= <- <-]. split; [exact Hplain|easy].
    + destruct keys; [now intros [= <- <-]|].
      unfold write_file. intros [= <- <-]. split; [exact Hplain|easy].
Qed.

Lemma encrypted_config_errors_witness :
  (gnupg locked_world = None →
     read_config [] "config.ini" locked_world
     = (Raises RuntimeError, locked_world)
     ∧ write_config toggled_config "config.ini" locked_world
       = (Raises RuntimeError, locked_world))
  ∧ (gnupg locked_world = Some [] →
     Cfg.get toggled_config "General" "fingerprint" = None
     ∨ Cfg.get toggled_config "General" "fingerprint" = Some "" →
     write_config toggled_config "config.ini" locked_world
     = (Raises IndexError, locked_world))
  ∧ ∀ o w',
      write_config toggled_config "config.ini" locked_world = (o, w') →
      disk w' !! "config.ini" = disk locked_world !! "config.ini"
      ∧ (o ≠ Returns tt → w' = locked_world).
Proof.
  apply (encrypted_config_errors toggled_config [] sample_config
           "config.ini" locked_world).
  reflexivity.
Defined.

(** ** More on [check_config_changes] *)

Lemma lookup_app {A} (key : string) (l l' : list (string * A)) :
  Cfg.lookup key (l ++ l')
  = match Cfg.lookup key l with
    | Some a => Some a
    | None => Cfg.lookup key l'
    end.
Proof.
  induction l as [|[k a] l IH]; simpl; [reflexivity|].
  now destruct (String.eqb k key).
Qed.

Lemma lookup_store_ne {A} (key key' : string) (a : A)
    (l : list (string * A)) :
  key ≠ key' →
  Cfg.lookup key' l ≠ None →
  Cfg.lookup key (Cfg.store key' a l) = Cfg.lookup key l.
Proof.
  intros Hne. induction l as [|[k b] l IH]; simpl; [congruence|].
  destruct (String.eqb_spec k key') as [->|Hk]; simpl.
  - destruct (String.eqb_spec key' key); congruence.
  - intros H. destruct (String.eqb k key); auto.
Qed.

Lemma lookup_remove_Some {A} (key key' : string) (a : A)
    (l : list (string * A)) :
  Cfg.lookup key (Cfg.remove key' l) = Some a → Cfg.lookup key l = Some a.
Proof.
  unfold Cfg.remove. induction l as [|[k b] l IH]; simpl; [discriminate|].
  destruct (String.eqb k key') eqn:E.
  - rewrite filter_cons_False by (simpl; rewrite E; auto).
    intros H. specialize (IH H).
    destruct (String.eqb_spec k key) as [->|_]; [|exact IH].
    apply String.eqb_eq in E. subst key'.
    clear -H. exfalso. revert H.
    change (filter _ l) with (Cfg.remove key l).
    now rewrite lookup_remove.
  - rewrite filter_cons_True by (simpl; rewrite E; auto).
    simpl. destruct (String.eqb k key); auto.
Qed.

Lemma get_add_section (cfg : config) (section section' option : string) :
  Cfg.get (Cfg.add_section cfg section) section' option
  = Cfg.get cfg section' option.
Proof.
  unfold Cfg.get, Cfg.add_section. rewrite lookup_app.
  destruct (Cfg.lookup section' cfg); [reflexivity|]. simpl.
  now destruct (String.eqb section section').
Qed.

Lemma sub_config_remove_option (cfg : config) (section option : string) :
  sub_config (Cfg.remove_option cfg section option) cfg.
Proof.
  intros section' option' value. unfold Cfg.remove_option.
  destruct (Cfg.lookup section cfg) as [body|] eqn:E; [|easy].
  unfold Cfg.get.
  destruct (String.eqb_spec section' section) as [->|Hne].
  - erewrite lookup_store by eassumption. rewrite E. simpl.
    apply lookup_remove_Some.
  - rewrite lookup_store_ne by congruence. easy.
Qed.

Lemma sub_config_refl (cfg : config) : sub_config cfg cfg.
Proof. now intros ? ? ?. Qed.

Lemma sub_config_trans (a b c : config) :
  sub_config a b → sub_config b c → sub_config a c.
Proof. intros Hab Hbc ? ? ? ?. now apply Hbc, Hab. Qed.

Lemma other_files_kept_trans (path : string) (w1 w2 w3 : world) :
  other_files_kept path w1 w2 → other_files_kept path w2 w3 →
  other_files_kept path w1 w3.
Proof. intros H12 H23 p ? ?. rewrite H23, H12; auto. Qed.

Lemma other_files_kept_disk (path : string) (w w' : world) :
  disk w' = disk w → other_files_kept path w w'.
Proof. intros E p _ _. now rewrite E. Qed.

Lemma write_config_other_files (cfg : config) (path : string) (w w' : world)
    (o : outcome unit) :
  write_config cfg path w = (o, w') → other_files_kept path w w'.
Proof.
  unfold write_config, mbind, io_bind, path_exists.
  destruct (bool_decide _).
  - unfold write_encrypted. destruct (gnupg w) as [keys|];
      [|intros [= _ <-]; now apply other_files_kept_disk].
    destruct (Str.truthy _); [|destruct keys];
      intros [= _ <-]; try (now apply other_files_kept_disk);
      intros p _ Hp; simpl; now rewrite lookup_insert_ne.
  - intros [= _ <-] p Hp _. simpl. now rewrite lookup_insert_ne.
Qed.

Lemma tidy_answer_disk (answers : list string) (level : nat) (w w' : world)
    (r : string) :
  tidy_answer answers level w = (Returns r, w') → disk w' = disk w.
Proof.
  intros E.
  destruct (mnemonic_loop_spec answers [] _ w mnemonic_inv_init)
    as [(k & wd & ini & _ & _ & _ & E')|(st & E' & Hinv)]; simpl in E'.
  { unfold tidy_answer in E. rewrite (bind_exits _ _ _ _ _ E') in E.
    discriminate. }
  unfold tidy_answer in E. rewrite (bind_returns _ _ _ _ _ E') in E.
  unfold read_answer in E. destruct (prompt_text st); [|discriminate].
  apply bind_inversion in E as (line & w1 & Hline & E).
  unfold input in Hline.
  destruct (stdin w); [discriminate|]. injection Hline as <- <-.
  destruct (Str.lower (Str.strip _)) as [|a0 tl];
    [now injection E as _ <-|].
  destruct (negb _); [now injection E as _ <-|].
  clear -E. revert E.
  generalize (String a0 tl) at 1 as answer. generalize 0 as index.
  generalize (initialism st) at 1 as rest.
  induction rest as [|c rest IH]; intros index answer; simpl.
  - now intros [= _ <-].
  - destruct answer as [|b0 ?]; [discriminate|].
    destruct (Ascii.eqb c b0); [|apply IH].
    destruct (answers !! index); [apply IH | discriminate].
Qed.

Lemma decide_difference_keeps (path section option : string)
    (st : walk) (answer : string) (w w' : world) (t : turn) :
  decide_difference path section option st answer w = (Returns t, w') →
  sub_config (user_config (turn_state t)) (user_config st)
  ∧ other_files_kept path w w'.
Proof.
  unfold decide_difference.
  cbn [default_config user_config section_index section_indices
       option_index option_indices].
  destruct (String.eqb answer "default").
  { intros (? & ? & Hw & E)%bind_inversion. inversion E; subst. simpl.
    split; [apply sub_config_remove_option|].
    eapply write_config_other_files; eassumption. }
  destruct (String.eqb answer "back").
  { destruct (pop (option_indices st)) as [[index indices]|];
      intros E; inversion E; subst; simpl;
      (split; [apply sub_config_refl | now apply other_files_kept_disk]). }
  destruct (String.eqb answer "quit"); intros E; inversion E; subst; simpl;
    (split; [apply sub_config_refl | now apply other_files_kept_disk]).
Qed.

Lemma option_turn_keeps (path section : string)
    (options : list string) (st : walk) (w w' : world) (t : turn) :
  option_turn path section options st w = (Returns t, w') →
  sub_config (user_config (turn_state t)) (user_config st)
  ∧ other_files_kept path w w'.
Proof.
  unfold option_turn.
  destruct (options !! option_index st) as [option|]; [|discriminate].
  destruct (Cfg.get (user_config st) section option) as [value|];
    [|intros E; inversion E; subst; simpl;
      split; [apply sub_config_refl | now apply other_files_kept_disk]].
  case_bool_decide;
    [|intros E; inversion E; subst; simpl;
      split; [apply sub_config_refl | now apply other_files_kept_disk]].
  unfold present_difference.
  intros (? & w1 & H1 & (? & w2 & H2 & (answer & w3 & H3 & E)%bind_inversion
    )%bind_inversion)%bind_inversion.
  apply decide_difference_keeps in E as [Hsub Hfiles].
  split; [exact Hsub|].
  apply tidy_answer_disk in H3.
  assert (disk w2 = disk w) as H12.
  { injection H2 as _ <-. simpl.
    destruct (option_indices st); now injection H1 as _ <-. }
  eapply other_files_kept_trans; [|exact Hfiles].
  apply other_files_kept_disk. congruence.
Qed.

Lemma option_loop_keeps (fuel : nat) (path section : string)
    (options : list string) (st : walk) (w w' : world) (r : walk + walk) :
  option_loop fuel path section options st w = (Returns (Some r), w') →
  sub_config (user_config (match r with inl s | inr s => s end))
    (user_config st)
  ∧ other_files_kept path w w'.
Proof.
  revert st w. induction fuel as [|fuel IH]; intros st w; simpl;
    [discriminate|].
  case_bool_decide;
    [|intros E; inversion E; subst;
      split; [apply sub_config_refl | now apply other_files_kept_disk]].
  intros (t & w1 & Ht & E)%bind_inversion.
  apply option_turn_keeps in Ht as [Hsub Hfiles].
  destruct t as [st'|st'|st'|st']; simpl in Hsub.
  - apply IH in E as [Hsub' Hfiles']. split.
    + eapply sub_config_trans; eassumption.
    + eapply other_files_kept_trans; eassumption.
  - apply IH in E as [Hsub' Hfiles']. split.
    + eapply sub_config_trans; eassumption.
    + eapply other_files_kept_trans; eassumption.
  - inversion E; subst. now split.
  - inversion E; subst. now split.
Qed.

Lemma section_loop_keeps (fuel : nat) (path : string)
    (ignored sections : list string) (st st' : walk) (w w' : world) :
  section_loop fuel path ignored sections st w = (Returns (Some st'), w') →
  sub_config (user_config st') (user_config st)
  ∧ other_files_kept path w w'.
Proof.
  revert st w. induction fuel as [|fuel IH]; intros st w; [discriminate|].
  cbn [section_loop].
  destruct (sections !! section_index st) as [section|];
    [|intros E; inversion E; subst;
      split; [apply sub_config_refl | now apply other_files_kept_disk]].
  intros (r & w1 & Hloop & E)%bind_inversion.
  destruct r as [r|]; [|discriminate].
  apply option_loop_keeps in Hloop as [Hsub Hfiles].
  cbn [user_config] in Hsub.
  assert (sub_config
            (if Cfg.has_section (user_config st) section
             then user_config st
             else Cfg.add_section (user_config st) section)
            (user_config st)) as Hadd.
  { destruct (Cfg.has_section _ _); [apply sub_config_refl|].
    intros s o v. now rewrite get_add_section. }
  destruct r as [s|s].
  - inversion E; subst. split; [|exact Hfiles].
    eapply sub_config_trans; eassumption.
  - assert (∀ st1,
              user_config st1 = user_config s →
              (∃ w2, section_loop fuel path ignored sections st1 w2
                     = (Returns (Some st'), w') ∧ w2 = w1) →
              sub_config (user_config st') (user_config st)
              ∧ other_files_kept path w w') as Hnext.
    { intros st1 Hu (w2 & E' & ->). apply IH in E' as [Hsub' Hfiles'].
      rewrite Hu in Hsub'. split.
      - eapply sub_config_trans; [exact Hsub'|].
        eapply sub_config_trans; eassumption.
      - eapply other_files_kept_trans; eassumption. }
    destruct (String.eqb (answer s) "back").
    + destruct (pop (section_indices s)) as [[index indices]|];
        [|discriminate].
      eapply Hnext; [|eauto]. reflexivity.
    + eapply Hnext; [|eauto]. reflexivity.
Qed.

(** X10: the reconciler only ever takes options out of the user's
    document, and only ever writes the configuration file. For a run
    that returns, every option of the final user document was read from
    the file with the same text, and no file other than the one at the
    path and its encrypted sibling has changed. *)
Theorem check_config_changes_keeps (fuel : nat) (defaults : config)
    (path : string) (excluded ignored : list string) (w w' : world)
    (final : walk) :
  check_config_changes fuel defaults path excluded ignored w
  = (Returns (Some final), w') →
  ∃ user,
    read_config [] path w = (Returns user, w)
    ∧ sub_config (user_config final) user
    ∧ other_files_kept path w w'.
Proof.
  unfold check_config_changes.
  intros (user & w1 & Hread & E)%bind_inversion.
  assert (w1 = w) as ->.
  { unfold read_config in Hread.
    destruct (disk w !! encrypted_path path).
    - destruct (gnupg w); [now injection Hread|discriminate].
    - destruct (disk w !! path); now injection Hread. }
  exists user. split; [exact Hread|].
  apply section_loop_keeps in E. exact E.
Qed.

Lemma check_config_changes_keeps_witness :
  ∃ user,
    read_config [] "config.ini"
      (World ["d"] [] (<["config.ini" := user_document]> ∅) None)
    = (Returns user,
       World ["d"] [] (<["config.ini" := user_document]> ∅) None)
    ∧ sub_config
        (user_config
           (Walk default_document reverted_document 1 [0] 1 [0] "default"))
        user
    ∧ other_files_kept "config.ini"
        (World ["d"] [] (<["config.ini" := user_document]> ∅) None)
        (World []
           [section_header "General";
            difference_line "timeout" "4"
              (ANSI_CURRENT +:+ "9" +:+ ANSI_RESET);
            ANSI_UNDERLINE +:+ "d" +:+ ANSI_RESET +:+ "efault/"
            +:+ ANSI_UNDERLINE +:+ "q" +:+ ANSI_RESET +:+ "uit: "]
           (<["config.ini" := reverted_document]>
              (<["config.ini" := user_document]> ∅)) None).
Proof.
  apply (check_config_changes_keeps 5 default_document "config.ini" [] []).
  vm_compute. reflexivity.
Defined.






(** ** The completer *)






(** ** The dictionary editor *)

Lemma prompt_for_value_str (prompt : string) (level : nat) (value : string)
    (all_values : values) (w : world) :
  prompt_for_value prompt level (PStr value) all_values w
  = (r ← prompt_for_input prompt level value all_values; mret (PStr r)) w.
Proof.
  unfold prompt_for_value, prompt_for_input, pt_prompt. simpl.
  unfold mbind, io_bind, input, Str.or.
  destruct (values_truthy all_values), (Str.truthy value) eqn:E; simpl;
    destruct (stdin w); try reflexivity;
    unfold mret, io_ret; destruct (Str.truthy (Str.strip _)) eqn:E';
    try reflexivity.
Qed.

Lemma prompt_for_value_returns (prompt : string) (level : nat)
    (value : pyval) (all_values : values) (w w' : world) (r : pyval) :
  prompt_for_value prompt level value all_values w = (Returns r, w') →
  edited value r ∧ (∃ line, stdin w = line :: stdin w') ∧ disk w' = disk w.
Proof.
  unfold prompt_for_value.
  destruct (values_truthy all_values || py_truthy value);
    unfold mbind, io_bind, input;
    (destruct (stdin w) as [|line rest]; [discriminate|]);
    intros [= <- <-]; simpl;
    (split; [|split; [eauto|reflexivity]]); unfold edited;
    try destruct (Str.truthy _); eauto.
Qed.

Lemma modify_value_returns (float_str : Num.float → string) (depth : nat)
    (prompt : string) (level : nat) (value : string) (all_values : values)
    (limits : Datatypes.option (limit * limit)) (w w' : world) (r : string) :
  modify_value float_str depth prompt level value all_values limits w
  = (Returns r, w') →
  length (stdin w') < length (stdin w) ∧ disk w' = disk w.
Proof.
  revert prompt level value limits w.
  induction depth as [|depth IH]; intros prompt level value limits w E;
    [discriminate|].
  cbn [modify_value] in E.
  apply bind_inversion in E as (entry & w1 & H1 & E).
  apply prompt_for_input_returns in H1 as (line & shown & Hin & Hw1 & _).
  assert (disk w1 = disk w) as Hd1 by (now rewrite Hw1).
  destruct (default (NoLimit, NoLimit) limits) as [lo hi].
  apply bind_inversion in E as (n1 & w2 & H2 & E).
  assert (w2 = w1) as ->.
  { destruct lo, hi; try (now injection H2).
    unfold to_int in H2. destruct (Num.py_float entry); [|discriminate].
    destruct (Num.py_int _) as [[]|]; try discriminate; now injection H2. }
  apply bind_inversion in E as (n2 & w3 & H3 & E).
  assert (w3 = w1) as ->.
  { destruct lo, hi; try (now injection H3).
    unfold to_float in H3. destruct (Num.py_float entry); [|discriminate].
    now injection H3. }
  rewrite Hin.
  match type of E with
  | (if ?b then _ else _) _ = _ => destruct b
  end.
  - apply IH in E as [Hlen Hd]. simpl. split; [lia|congruence].
  - injection E as _ <-. simpl. split; [lia|congruence].
Qed.

Lemma modify_value_of_returns (float_str : Num.float → string)
    (depth : nat) (prompt : string) (level : nat) (value : pyval)
    (all_values : values) (w w' : world) (r : pyval) :
  modify_value_of float_str depth prompt level value all_values w
  = (Returns r, w') →
  edited value r ∧ length (stdin w') < length (stdin w) ∧ disk w' = disk w.
Proof.
  destruct depth as [|depth]; [discriminate|]. cbn [modify_value_of].
  intros (entry & w1 & H1 & E)%bind_inversion.
  apply prompt_for_value_returns in H1 as (Hed & [line Hin] & Hd).
  rewrite Hin. simpl.
  match type of E with
  | (if ?b then _ else _) _ = _ => destruct b
  end.
  - apply bind_inversion in E as (s & w2 & H2 & E). injection E as <- <-.
    apply modify_value_returns in H2 as [Hlen Hd2].
    split; [right; eauto|]. split; [lia|congruence].
  - injection E as <- <-. split; [exact Hed|]. split; [lia|exact Hd].
Qed.

Lemma tidy_answer_stdin (answers : list string) (level : nat) (w w' : world)
    (r : string) :
  tidy_answer answers level w = (Returns r, w') →
  length (stdin w) = S (length (stdin w')).
Proof.
  intros E.
  destruct (mnemonic_loop_spec answers [] _ w mnemonic_inv_init)
    as [(k & wd & ini & _ & _ & _ & E')|(st & E' & Hinv)]; simpl in E'.
  { unfold tidy_answer in E. rewrite (bind_exits _ _ _ _ _ E') in E.
    discriminate. }
  unfold tidy_answer in E. rewrite (bind_returns _ _ _ _ _ E') in E.
  unfold read_answer in E. destruct (prompt_text st); [|discriminate].
  apply bind_inversion in E as (line & w1 & Hline & E).
  unfold input in Hline.
  destruct (stdin w) as [|l rest]; [discriminate|].
  injection Hline as <- <-. simpl. f_equal.
  destruct (Str.lower (Str.strip _)) as [|a0 tl];
    [now injection E as _ <-|].
  destruct (negb _); [now injection E as _ <-|].
  clear -E. revert E.
  generalize (String a0 tl) at 1 as answer. generalize 0 as index.
  generalize (initialism st) at 1 as rest'.
  induction rest' as [|c rest' IH]; intros index answer; simpl.
  - now intros [= _ <-].
  - destruct answer as [|b0 ?]; [discriminate|].
    destruct (Ascii.eqb c b0); [|apply IH].
    destruct (answers !! index); [apply IH | discriminate].
Qed.

Lemma edited_refl (v : pyval) : edited v v.
Proof. now left. Qed.

Lemma edited_trans (a b c : pyval) : edited a b → edited b c → edited a c.
Proof.
  intros [->|[s ->]] [->|[t ->]]; unfold edited; eauto.
Qed.

Lemma edited_entries_refl (d : list (pyval * pyval)) : edited_entries d d.
Proof.
  split; [reflexivity|]. apply Forall2_same_length_lookup_2; [reflexivity|].
  intros i x y Hx Hy. assert (x = y) as -> by congruence. apply edited_refl.
Qed.

Lemma edited_entries_trans (a b c : list (pyval * pyval)) :
  edited_entries a b → edited_entries b c → edited_entries a c.
Proof.
  intros [Hk1 Hv1] [Hk2 Hv2]. split; [congruence|].
  apply Forall2_same_length_lookup_2.
  { apply Forall2_length in Hv1, Hv2. congruence. }
  intros i x z Hx Hz.
  destruct (Forall2_lookup_l _ _ _ _ _ Hv1 Hx) as (y & Hy & Hxy).
  destruct (Forall2_lookup_l _ _ _ _ _ Hv2 Hy) as (z' & Hz' & Hyz).
  assert (z' = z) as -> by congruence.
  eapply edited_trans; eassumption.
Qed.

Lemma edited_entries_insert (d : list (pyval * pyval)) (i : nat)
    (key old new : pyval) :
  d !! i = Some (key, old) → edited old new →
  edited_entries d (<[i := (key, new)]> d).
Proof.
  intros Hi Hed. split.
  - rewrite list_fmap_insert. simpl. apply list_insert_id.
    now rewrite list_lookup_fmap, Hi.
  - rewrite list_fmap_insert. simpl.
    apply Forall2_same_length_lookup_2; [now rewrite length_insert|].
    intros j x y Hx Hy. destruct (decide (i = j)) as [<-|Hne].
    + rewrite list_lookup_insert_eq in Hy
        by (apply lookup_lt_Some in Hx; exact Hx).
      rewrite list_lookup_fmap, Hi in Hx. simpl in Hx. congruence.
    + rewrite list_lookup_insert_ne in Hy by exact Hne.
      assert (x = y) as -> by congruence. apply edited_refl.
Qed.

Lemma dictionary_loop_edited (float_str : Num.float → string)
    (depth fuel level : nat) (value_prompt : string) (all_values : values)
    (dictionary : list (pyval * pyval)) (index : Z) (w w' : world)
    (result : list (pyval * pyval)) :
  dictionary_loop float_str depth fuel level value_prompt all_values
    dictionary index w = (Returns (Some result), w') →
  edited_entries dictionary result ∧ disk w' = disk w.
Proof.
  revert dictionary index w.
  induction fuel as [|fuel IH]; intros dictionary index w; [discriminate|].
  cbn [dictionary_loop].
  destruct (index <? Z.of_nat (length dictionary))%Z;
    [|intros [= <- <-]; split; [apply edited_entries_refl | reflexivity]].
  destruct (py_position (length dictionary) index) as [i|];
    [|discriminate]. simpl.
  destruct (dictionary !! i) as [[key value]|] eqn:Hi; [|discriminate].
  simpl.
  intros (? & w1 & H1 & (answer & w2 & H2 & E)%bind_inversion
    )%bind_inversion.
  injection H1 as _ <-. apply tidy_answer_disk in H2. simpl in H2.
  destruct (String.eqb answer "modify").
  { apply bind_inversion in E as (new & w3 & H3 & E).
    apply modify_value_of_returns in H3 as (Hed & _ & Hd3).
    apply IH in E as [Hent Hd]. split; [|congruence].
    eapply edited_entries_trans; [|exact Hent].
    eapply edited_entries_insert; eassumption. }
  destruct (String.eqb answer "empty").
  { apply IH in E as [Hent Hd]. split; [|congruence].
    eapply edited_entries_trans; [|exact Hent].
    eapply edited_entries_insert; [eassumption|]. right. eauto. }
  destruct (String.eqb answer "back").
  { apply IH in E as [Hent Hd]. split; [exact Hent|congruence]. }
  destruct (String.eqb answer "quit").
  { injection E as <- <-. split; [apply edited_entries_refl|congruence]. }
  apply IH in E as [Hent Hd]. split; [exact Hent|congruence].
Qed.

Lemma dictionary_loop_ends (float_str : Num.float → string)
    (depth fuel level : nat) (value_prompt : string) (all_values : values)
    (dictionary : list (pyval * pyval)) (index : Z) (w w' : world) :
  length (stdin w) < fuel →
  dictionary_loop float_str depth fuel level value_prompt all_values
    dictionary index w ≠ (Returns None, w').
Proof.
  revert dictionary index w.
  induction fuel as [|fuel IH]; intros dictionary index w Hfuel; [lia|].
  cbn [dictionary_loop].
  destruct (index <? Z.of_nat (length dictionary))%Z; [|discriminate].
  destruct (py_position (length dictionary) index) as [i|];
    [|discriminate]. simpl.
  destruct (dictionary !! i) as [[key value]|] eqn:Hi; [|discriminate].
  simpl.
  intros (? & w1 & H1 & (answer & w2 & H2 & E)%bind_inversion
    )%bind_inversion.
  injection H1 as _ <-. apply tidy_answer_stdin in H2. simpl in H2.
  destruct (String.eqb answer "modify").
  { apply bind_inversion in E as (new & w3 & H3 & E).
    apply modify_value_of_returns in H3 as (_ & Hlen & _).
    revert E. apply IH. lia. }
  destruct (String.eqb answer "empty"); [revert E; apply IH; lia|].
  destruct (String.eqb answer "back"); [revert E; apply IH; lia|].
  destruct (String.eqb answer "quit"); [discriminate|].
  revert E. apply IH. lia.
Qed.

(** X13: whatever is typed, [modify_dictionary] gives back a dictionary
    with the keys it was given, in the same order; each value is the old
    one or a string (what was typed, or the empty string), and no file
    is touched. *)
Theorem modify_dictionary_keys (float_str : Num.float → string)
    (depth fuel : nat) (dictionary : list (pyval * pyval)) (level : nat)
    (prompts : gmap string string) (all_values : values) (w w' : world)
    (result : list (pyval * pyval)) :
  modify_dictionary float_str depth fuel dictionary level prompts all_values
    w = (Returns (Some result), w') →
  result.*1 = dictionary.*1
  ∧ Forall2 edited dictionary.*2 result.*2
  ∧ disk w' = disk w.
Proof.
  intros E. apply dictionary_loop_edited in E as [[Hk Hv] Hd]. auto.
Qed.

Lemma modify_dictionary_keys_witness :
  edited_dictionary.*1 = sample_dictionary.*1
  ∧ Forall2 edited sample_dictionary.*2 edited_dictionary.*2
  ∧ disk (World []
            [entry_line 1 (PStr "exchange") (PStr "TSE");
             Str.times INDENT 1 +:+ ANSI_UNDERLINE +:+ "m" +:+ ANSI_RESET
             +:+ "odify/" +:+ ANSI_UNDERLINE +:+ "e" +:+ ANSI_RESET
             +:+ "mpty/" +:+ ANSI_UNDERLINE +:+ "q" +:+ ANSI_RESET
             +:+ "uit: ";
             entry_line 1 (PStr "lots") (PInt 1);
             Str.times INDENT 1 +:+ ANSI_UNDERLINE +:+ "m" +:+ ANSI_RESET
             +:+ "odify/" +:+ ANSI_UNDERLINE +:+ "e" +:+ ANSI_RESET
             +:+ "mpty/" +:+ ANSI_UNDERLINE +:+ "b" +:+ ANSI_RESET
             +:+ "ack/" +:+ ANSI_UNDERLINE +:+ "q" +:+ ANSI_RESET
             +:+ "uit: ";
             Str.times INDENT 1 +:+ "value " +:+ ANSI_CURRENT +:+ "1"
             +:+ ANSI_RESET +:+ ": "] ∅ None)
    = disk (World ["e"; "m"; " 5 "] [] ∅ None).
Proof.
  apply (modify_dictionary_keys no_float_str 5 5 sample_dictionary 1 ∅
           NoValues (World ["e"; "m"; " 5 "] [] ∅ None)).
  vm_compute. reflexivity.
Defined.

(** X14: [modify_dictionary] ends: every turn of its loop takes a line
    from the console, so a loop allowed more turns than there are lines
    to read never runs out of them. It returns, or stops at the end of
    the input or in [modify_value]. *)
Theorem modify_dictionary_ends (float_str : Num.float → string)
    (depth fuel : nat) (dictionary : list (pyval * pyval)) (level : nat)
    (prompts : gmap string string) (all_values : values) (w : world) :
  length (stdin w) < fuel →
  ran_out (modify_dictionary float_str depth fuel dictionary level prompts
             all_values w).1 = false.
Proof.
  intros Hfuel.
  destruct (modify_dictionary _ _ _ _ _ _ _ w) as [[[r|]| |] w'] eqn:E;
    try reflexivity.
  exfalso. revert E. now apply dictionary_loop_ends.
Qed.

Lemma modify_dictionary_ends_witness :
  ran_out (modify_dictionary no_float_str 5 4 sample_dictionary 1 ∅ NoValues
             (World ["e"; "m"; " 5 "] [] ∅ None)).1 = false.
Proof.
  apply (modify_dictionary_ends no_float_str 5 4 sample_dictionary 1 ∅
           NoValues (World ["e"; "m"; " 5 "] [] ∅ None)).
  simpl. lia.
Defined.

(** ** The tuple editor *)

Lemma py_position_lt (len : nat) (index : Z) (i : nat) :
  py_position len index = Some i → i < len.
Proof.
  unfold py_position.
  destruct (0 <=? index)%Z eqn:H0.
  - destruct (index <? Z.of_nat len)%Z eqn:H1; [|discriminate].
    intros [= <-]. lia.
  - destruct (- Z.of_nat len <=? index)%Z eqn:H1; [|discriminate].
    intros [= <-]. lia.
Qed.

Lemma py_position_nonneg (len : nat) (index : Z) (i : nat) :
  (0 ≤ index)%Z → py_position len index = Some i → i = Z.to_nat index.
Proof.
  unfold py_position. intros H0.
  rewrite (proj2 (Z.leb_le 0 index) H0).
  destruct (index <? Z.of_nat len)%Z; [congruence|discriminate].
Qed.

Lemma py_item_elem {A} (l : list A) (index : Z) (x : A) :
  py_item l index = Some x → x ∈ l.
Proof.
  unfold py_item. destruct (py_position _ _); simpl; [|discriminate].
  apply list_elem_of_lookup_2.
Qed.

Lemma tidy_answer_elem (answers : list string) (level : nat) (w w' : world)
    (r : string) :
  tidy_answer answers level w = (Returns r, w') → r = "" ∨ r ∈ answers.
Proof.
  intros E.
  destruct (mnemonic_loop_spec answers [] _ w mnemonic_inv_init)
    as [(k & wd & ini & _ & _ & _ & E')|(st & E' & Hinv)]; simpl in E'.
  { unfold tidy_answer in E. rewrite (bind_exits _ _ _ _ _ E') in E.
    discriminate. }
  destruct answers as [|a answers].
  { unfold tidy_answer in E. simpl in E'. injection E' as <-.
    discriminate. }
  destruct (stdin w) as [|line rest] eqn:Hin.
  { unfold tidy_answer in E. rewrite (bind_returns _ _ _ _ _ E') in E.
    unfold read_answer in E.
    destruct (prompt_text st); [|discriminate].
    unfold mbind, io_bind, input in E. rewrite Hin in E. discriminate. }
  destruct Hinv as [_ Hacc _]. simpl in Hacc.
  destruct (tidy_answer_run (a :: answers) level w line rest _
              ltac:(discriminate) Hacc Hin) as [shown Hrun].
  rewrite Hrun in E. injection E as <- <-. apply resolution_member.
Qed.

Lemma from_tuple_insert (old l : list pyval) (index : Z) (x : pyval) :
  Forall (from_tuple old) l → from_tuple old x →
  Forall (from_tuple old) (py_insert l index x).
Proof.
  intros Hl Hx. unfold py_insert. apply Forall_app. split.
  - now apply Forall_take.
  - constructor; [exact Hx|]. now apply Forall_drop.
Qed.

Lemma length_py_insert {A} (l : list A) (index : Z) (x : A) :
  length (py_insert l index x) = S (length l).
Proof.
  unfold py_insert. rewrite length_app. simpl.
  rewrite length_take, length_drop. lia.
Qed.

(** What a run of the loop keeps: the items come from the old tuple or
    are strings, the files are left alone, and when the prompts name the
    items the tuple neither shrinks nor grows beyond them. *)
Lemma tuple_loop_keeps (float_str : Num.float → string) (depth fuel : nat)
    (level : nat) (prompts : gmap string string)
    (values_prompt : list string) (all_values : list values)
    (old tuple_entry : list pyval) (index : Z) (w w' : world)
    (result : list pyval) :
  (0 ≤ index)%Z →
  Forall (from_tuple old) tuple_entry →
  tuple_loop float_str depth fuel level prompts values_prompt all_values
    tuple_entry index w = (Returns (Some result), w') →
  Forall (from_tuple old) result
  ∧ disk w' = disk w
  ∧ (values_prompt ≠ [] →
     (index < Z.of_nat (length values_prompt))%Z →
     (length tuple_entry ≤ length result)%nat
     ∧ (length result
       ≤ Nat.max (length tuple_entry) (length values_prompt))%nat).
Proof.
  revert tuple_entry index w.
  induction fuel as [|fuel IH]; intros tuple_entry index w Hindex Hfrom;
    [discriminate|].
  cbn [tuple_loop].
  destruct (index <=? Z.of_nat (length tuple_entry))%Z eqn:Hle;
    [|intros [= <- <-]; repeat split; auto; lia].
  apply Z.leb_le in Hle.
  set (fixed := match values_prompt with [] => false | _ => true end).
  set (at_end := (index =? Z.of_nat (length tuple_entry))%Z).
  intros (? & w1 & H1 & (answer & w2 & H2 & E)%bind_inversion
    )%bind_inversion.
  assert (disk w1 = disk w) as Hd1.
  { destruct at_end; [now injection H1 as _ <-|].
    destruct (py_item tuple_entry index); [|discriminate].
    now injection H1 as _ <-. }
  pose proof (tidy_answer_disk _ _ _ _ _ H2) as Hd2.
  apply tidy_answer_elem in H2 as Hanswer.
  (* the end of a turn *)
  assert (∀ entry' index' w3,
            (0 ≤ index' + 1)%Z →
            Forall (from_tuple old) entry' →
            disk w3 = disk w →
            (values_prompt ≠ [] →
             (index < Z.of_nat (length values_prompt))%Z →
             (index' + 1 ≤ Z.of_nat (length values_prompt))%Z
             ∧ (length tuple_entry ≤ length entry')%nat
             ∧ (length entry'
               ≤ Nat.max (length tuple_entry) (length values_prompt))%nat) →
            (if fixed && (index' + 1 =? Z.of_nat (length values_prompt))%Z
             then mret (Some entry')
             else tuple_loop float_str depth fuel level prompts
                    values_prompt all_values entry' (index' + 1)%Z) w3
            = (Returns (Some result), w') →
            Forall (from_tuple old) result
            ∧ disk w' = disk w
            ∧ (values_prompt ≠ [] →
               (index < Z.of_nat (length values_prompt))%Z →
               (length tuple_entry ≤ length result)%nat
               ∧ (length result
                 ≤ Nat.max (length tuple_entry) (length values_prompt))%nat))
    as Hnext.
  { intros entry' index' w3 Hi' Hfrom' Hd3 Hlen E'.
    destruct (fixed && (index' + 1 =? Z.of_nat (length values_prompt))%Z)
      eqn:Hstop.
    - injection E' as <- <-. split; [exact Hfrom'|]. split; [exact Hd3|].
      intros Hvp Hlt. destruct (Hlen Hvp Hlt) as (_ & ? & ?). lia.
    - apply IH in E' as (Hres & Hd & Hlen'); [|exact Hi'|exact Hfrom'].
      split; [exact Hres|]. split; [congruence|].
      intros Hvp Hlt. destruct (Hlen Hvp Hlt) as (Hi'' & ? & ?).
      assert (fixed = true) as Hfixed
        by (unfold fixed; destruct values_prompt; congruence).
      rewrite Hfixed in Hstop. simpl in Hstop. apply Z.eqb_neq in Hstop.
      destruct (Hlen' Hvp); lia. }
  assert (fixed = true ↔ values_prompt ≠ []) as Hfixed.
  { unfold fixed. destruct values_prompt; split; congruence. }
  assert (answer ∈ tuple_answers at_end fixed index →
          (answer = "insert" → at_end = true ∨ fixed = false)
          ∧ (answer = "delete" → fixed = false)
          ∧ (answer = "back" → index ≠ 0%Z)) as Hmenu.
  { unfold tuple_answers. intros Hin. repeat split; intros ->.
    - destruct at_end; [now left|]. destruct fixed; [|now right].
      exfalso. destruct (index =? 0)%Z; vm_compute in Hin;
        repeat (apply elem_of_cons in Hin as [Hin|Hin]; [discriminate|]);
        inversion Hin.
    - destruct fixed; [|reflexivity]. exfalso.
      destruct at_end, (index =? 0)%Z; vm_compute in Hin;
        repeat (apply elem_of_cons in Hin as [Hin|Hin]; [discriminate|]);
        inversion Hin.
    - intros ->. simpl in Hin. exfalso.
      destruct at_end, fixed; vm_compute in Hin;
        repeat (apply elem_of_cons in Hin as [Hin|Hin]; [discriminate|]);
        inversion Hin. }
  destruct (String.eqb_spec answer "insert") as [->|_].
  { apply bind_inversion in E as (value & w3 & H3 & E).
    apply modify_value_of_returns in H3 as (Hed & _ & Hd3).
    destruct Hanswer as [|Hanswer]; [discriminate|].
    destruct (Hmenu Hanswer) as (Hins & _ & _).
    eapply Hnext; [| | |  |exact E].
    - lia.
    - apply from_tuple_insert; [exact Hfrom|].
      destruct Hed as [->|?]; right; eauto.
    - congruence.
    - intros Hvp Hlt. rewrite length_py_insert.
      destruct (Hins eq_refl) as [Hend|Hfree];
        [|apply Hfixed in Hvp; congruence].
      unfold at_end in Hend. apply Z.eqb_eq in Hend. lia. }
  destruct (String.eqb_spec answer "modify") as [->|_].
  { destruct (py_item tuple_entry index) as [item|] eqn:Hitem;
      [|discriminate].
    apply bind_inversion in E as (value & w3 & H3 & E).
    apply modify_value_of_returns in H3 as (Hed & _ & Hd3).
    destruct (py_position (length tuple_entry) index) as [i|] eqn:Hi;
      [|discriminate].
    eapply Hnext; [| | | |exact E].
    - lia.
    - apply Forall_insert; [exact Hfrom|].
      destruct Hed as [->|?]; [|now right].
      apply py_item_elem in Hitem.
      now apply (proj1 (Forall_forall _ _) Hfrom).
    - congruence.
    - intros Hvp Hlt. rewrite length_insert. lia. }
  destruct (String.eqb_spec answer "empty") as [->|_].
  { destruct (py_position (length tuple_entry) index) as [i|] eqn:Hi;
      [|discriminate].
    eapply Hnext; [| | | |exact E].
    - lia.
    - apply Forall_insert; [exact Hfrom|]. right. eauto.
    - congruence.
    - intros Hvp Hlt. rewrite length_insert. lia. }
  destruct (String.eqb_spec answer "delete") as [->|_].
  { destruct (py_position (length tuple_entry) index) as [i|] eqn:Hi;
      [|discriminate].
    destruct Hanswer as [|Hanswer]; [discriminate|].
    destruct (Hmenu Hanswer) as (_ & Hdel & _).
    eapply Hnext; [| | | |exact E].
    - lia.
    - now apply Forall_delete.
    - congruence.
    - intros Hvp Hlt. apply Hfixed in Hvp. specialize (Hdel eq_refl).
      congruence. }
  destruct (String.eqb_spec answer "back") as [->|_].
  { destruct Hanswer as [|Hanswer]; [discriminate|].
    destruct (Hmenu Hanswer) as (_ & _ & Hback). specialize (Hback eq_refl).
    apply IH in E as (Hres & Hd & Hlen); [|lia|exact Hfrom].
    split; [exact Hres|]. split; [congruence|].
    intros Hvp Hlt. apply Hlen; [exact Hvp|lia]. }
  destruct (String.eqb_spec answer "quit") as [->|_].
  { injection E as <- <-. split; [exact Hfrom|]. split; [congruence|].
    intros _ _. lia. }
  eapply Hnext; [| | | |exact E].
  - lia.
  - exact Hfrom.
  - congruence.
  - intros Hvp Hlt. lia.
Qed.

Lemma tuple_loop_ends (float_str : Num.float → string) (depth fuel : nat)
    (level : nat) (prompts : gmap string string)
    (values_prompt : list string) (all_values : list values)
    (tuple_entry : list pyval) (index : Z) (w w' : world) :
  length (stdin w) < fuel →
  tuple_loop float_str depth fuel level prompts values_prompt all_values
    tuple_entry index w ≠ (Returns None, w').
Proof.
  revert tuple_entry index w.
  induction fuel as [|fuel IH]; intros tuple_entry index w Hfuel; [lia|].
  cbn [tuple_loop].
  destruct (index <=? Z.of_nat (length tuple_entry))%Z; [|discriminate].
  intros (? & w1 & H1 & (answer & w2 & H2 & E)%bind_inversion
    )%bind_inversion.
  assert (stdin w1 = stdin w) as Hs1.
  { destruct (index =? _)%Z; [now injection H1 as _ <-|].
    destruct (py_item tuple_entry index); [|discriminate].
    now injection H1 as _ <-. }
  apply tidy_answer_stdin in H2. rewrite Hs1 in H2.
  assert (∀ entry' (index' : Z) w3,
            (length (stdin w3) ≤ length (stdin w2))%nat →
            (if match values_prompt with [] => false | _ => true end
                && (index' + 1 =? Z.of_nat (length values_prompt))%Z
             then mret (Some entry')
             else tuple_loop float_str depth fuel level prompts
                    values_prompt all_values entry' (index' + 1)%Z) w3
            ≠ (Returns None, w')) as Hnext.
  { intros entry' index' w3 Hlen.
    destruct (match values_prompt with [] => false | _ => true end
              && (index' + 1 =? Z.of_nat (length values_prompt))%Z);
      [intros [=]|]. apply IH. lia. }
  destruct (String.eqb answer "insert").
  { apply bind_inversion in E as (value & w3 & H3 & E).
    apply modify_value_of_returns in H3 as (_ & Hlen & _).
    revert E. apply Hnext. lia. }
  destruct (String.eqb answer "modify").
  { destruct (py_item tuple_entry index); [|discriminate].
    apply bind_inversion in E as (value & w3 & H3 & E).
    apply modify_value_of_returns in H3 as (_ & Hlen & _).
    destruct (py_position _ _); [|discriminate].
    revert E. apply Hnext. lia. }
  destruct (String.eqb answer "empty").
  { destruct (py_position _ _); [|discriminate]. revert E. now apply Hnext. }
  destruct (String.eqb answer "delete").
  { destruct (py_position _ _); [|discriminate]. revert E. now apply Hnext. }
  destruct (String.eqb answer "back"); [revert E; apply IH; lia|].
  destruct (String.eqb answer "quit"); [discriminate|].
  revert E. now apply Hnext.
Qed.

(** X15: whatever is typed, every item of the tuple [modify_tuple] gives
    back is an item of the tuple it was given or a string, and no file
    is touched. *)
Theorem modify_tuple_items (float_str : Num.float → string)
    (depth fuel : nat) (tuple_entry : list pyval) (level : nat)
    (prompts : gmap string string) (values_prompt : list string)
    (all_values : list values) (w w' : world) (result : list pyval) :
  modify_tuple float_str depth fuel tuple_entry level prompts values_prompt
    all_values w = (Returns (Some result), w') →
  Forall (from_tuple tuple_entry) result ∧ disk w' = disk w.
Proof.
  intros E.
  apply (tuple_loop_keeps _ _ _ _ _ _ _ tuple_entry) in E
    as (Hres & Hd & _); [auto|lia|].
  apply Forall_forall. intros x Hx. now left.
Qed.

Lemma modify_tuple_items_witness :
  Forall (from_tuple sample_tuple) edited_tuple
  ∧ disk (World []
            [item_line 1 (PStr "click");
             Str.times INDENT 1 +:+ ANSI_UNDERLINE +:+ "i" +:+ ANSI_RESET
             +:+ "nsert/" +:+ ANSI_UNDERLINE +:+ "m" +:+ ANSI_RESET
             +:+ "odify/" +:+ ANSI_UNDERLINE +:+ "d" +:+ ANSI_RESET
             +:+ "elete/" +:+ ANSI_UNDERLINE +:+ "q" +:+ ANSI_RESET
             +:+ "uit: ";
             item_line 1 (PInt 10);
             Str.times INDENT 1 +:+ ANSI_UNDERLINE +:+ "i" +:+ ANSI_RESET
             +:+ "nsert/" +:+ ANSI_UNDERLINE +:+ "m" +:+ ANSI_RESET
             +:+ "odify/" +:+ ANSI_UNDERLINE +:+ "d" +:+ ANSI_RESET
             +:+ "elete/" +:+ ANSI_UNDERLINE +:+ "b" +:+ ANSI_RESET
             +:+ "ack/" +:+ ANSI_UNDERLINE +:+ "q" +:+ ANSI_RESET
             +:+ "uit: ";
             Str.times INDENT 1 +:+ "value " +:+ ANSI_CURRENT +:+ "10"
             +:+ ANSI_RESET +:+ ": ";
             end_of_tuple 1 ∅;
             Str.times INDENT 1 +:+ ANSI_UNDERLINE +:+ "i" +:+ ANSI_RESET
             +:+ "nsert/" +:+ ANSI_UNDERLINE +:+ "b" +:+ ANSI_RESET
             +:+ "ack/" +:+ ANSI_UNDERLINE +:+ "q" +:+ ANSI_RESET
             +:+ "uit: ";
             Str.times INDENT 1 +:+ "value: ";
             end_of_tuple 1 ∅;
             Str.times INDENT 1 +:+ ANSI_UNDERLINE +:+ "i" +:+ ANSI_RESET
             +:+ "nsert/" +:+ ANSI_UNDERLINE +:+ "b" +:+ ANSI_RESET
             +:+ "ack/" +:+ ANSI_UNDERLINE +:+ "q" +:+ ANSI_RESET
             +:+ "uit: "] ∅ None)
    = disk (World [""; "m"; "20"; "i"; ""; "q"] [] ∅ None).
Proof.
  apply (modify_tuple_items no_float_str 5 9 sample_tuple 1 ∅ [] []
           (World [""; "m"; "20"; "i"; ""; "q"] [] ∅ None)).
  vm_compute. reflexivity.
Defined.

(** X16: when the prompts name the items of the tuple, [modify_tuple]
    offers no deletion and inserts only at the end, up to the number of
    names: the tuple it gives back is no shorter than the one it was
    given and no longer than the longer of that tuple and the names. *)
Theorem modify_tuple_fixed (float_str : Num.float → string)
    (depth fuel : nat) (tuple_entry : list pyval) (level : nat)
    (prompts : gmap string string) (values_prompt : list string)
    (all_values : list values) (w w' : world) (result : list pyval) :
  values_prompt ≠ [] →
  modify_tuple float_str depth fuel tuple_entry level prompts values_prompt
    all_values w = (Returns (Some result), w') →
  (length tuple_entry ≤ length result)%nat
  ∧ (length result
     ≤ Nat.max (length tuple_entry) (length values_prompt))%nat.
Proof.
  intros Hvp E.
  apply (tuple_loop_keeps _ _ _ _ _ _ _ tuple_entry) in E
    as (_ & _ & Hlen); [|lia|].
  - apply Hlen; [exact Hvp|]. destruct values_prompt; [congruence|].
    simpl. lia.
  - apply Forall_forall. intros x Hx. now left.
Qed.

Lemma modify_tuple_fixed_witness :
  (length [PStr "8"] ≤ length [PStr "8"; PStr "30"])%nat
  ∧ (length [PStr "8"; PStr "30"]
     ≤ Nat.max (length [PStr "8"]) (length ["hour"; "minute"]))%nat.
Proof.
  apply (modify_tuple_fixed no_float_str 5 9 [PStr "8"] 1 ∅
           ["hour"; "minute"] []
           (World ["d"; "i"; "30"; "never read"] [] ∅ None)
           (World ["never read"]
              [item_line 1 (PStr "8");
               Str.times INDENT 1 +:+ ANSI_UNDERLINE +:+ "m" +:+ ANSI_RESET
               +:+ "odify/" +:+ ANSI_UNDERLINE +:+ "e" +:+ ANSI_RESET
               +:+ "mpty/" +:+ ANSI_UNDERLINE +:+ "q" +:+ ANSI_RESET
               +:+ "uit: ";
               end_of_tuple 1 ∅;
               Str.times INDENT 1 +:+ ANSI_UNDERLINE +:+ "i" +:+ ANSI_RESET
               +:+ "nsert/" +:+ ANSI_UNDERLINE +:+ "b" +:+ ANSI_RESET
               +:+ "ack/" +:+ ANSI_UNDERLINE +:+ "q" +:+ ANSI_RESET
               +:+ "uit: ";
               Str.times INDENT 1 +:+ "minute: "] ∅ None)).
  - discriminate.
  - vm_compute. reflexivity.
Defined.

(** X17: [modify_tuple] ends: every turn of its loop takes a line from
    the console, so a loop allowed more turns than there are lines to
    read never runs out of them. *)
Theorem modify_tuple_ends (float_str : Num.float → string)
    (depth fuel : nat) (tuple_entry : list pyval) (level : nat)
    (prompts : gmap string string) (values_prompt : list string)
    (all_values : list values) (w : world) :
  length (stdin w) < fuel →
  ran_out (modify_tuple float_str depth fuel tuple_entry level prompts
             values_prompt all_values w).1 = false.
Proof.
  intros Hfuel.
  destruct (modify_tuple _ _ _ _ _ _ _ _ w) as [[[r|]| |] w'] eqn:E;
    try reflexivity.
  exfalso. revert E. now apply tuple_loop_ends.
Qed.

Lemma modify_tuple_ends_witness :
  ran_out (modify_tuple no_float_str 5 7 sample_tuple 1 ∅ [] []
             (World [""; "m"; "20"; "i"; ""; "q"] [] ∅ None)).1 = false.
Proof.
  apply (modify_tuple_ends no_float_str 5 7 sample_tuple 1 ∅ [] []
           (World [""; "m"; "20"; "i"; ""; "q"] [] ∅ None)).
  simpl. lia.
Defined.

(** ** The section editor *)

Lemma section_menu :
  accelerators ["insert"; "back"; "quit"] (chars "ibq").
Proof. menu_accelerators. Qed.

(** X18: in a section without options that may be inserted into, the
    end-of-section menu offers back although there is nothing to go back
    to: choosing it makes [modify_section] index the empty list of
    options and raise [IndexError]. *)
Theorem modify_section_back_empty
    (literal_eval : string → literal_result)
    (float_str : Num.float → string)
    (modify_dictionary :
       list (pyval * pyval) → nat → gmap string string → values
       → IO (list (pyval * pyval)))
    (modify_tuple :
       list pyval → nat → gmap string string → values → IO (list pyval))
    (modify_tuple_list :
       list pyval → gmap string string → gmap string (list string)
       → IO (list pyval))
    (depth fuel : nat) (cfg : config) (section path : string)
    (can_back : bool) (prompts : gmap string string)
    (items : gmap string (list string)) (all_values : values)
    (w : world) (line : string) (rest : list string) (tl : string) :
  Cfg.options cfg section = Some [] →
  stdin w = line :: rest →
  Str.lower (Str.strip line) = String "b" tl →
  ∃ shown,
    modify_section literal_eval float_str modify_dictionary modify_tuple
      modify_tuple_list depth (S (S fuel)) cfg section path can_back true
      prompts items all_values w
    = (Raises IndexError,
       after_menu (emit (end_of_section prompts) w) shown rest).
Proof.
  intros Hoptions Hin Hline.
  destruct (tidy_answer_run ["insert"; "back"; "quit"] 0
              (emit (end_of_section prompts) w) line rest (chars "ibq")
              ltac:(discriminate) section_menu Hin) as [shown Hrun].
  exists shown. unfold modify_section. rewrite Hoptions.
  remember (S fuel) as fuel1 eqn:Hfuel. cbn [section_walk_loop].
  cbn [walk_index walk_length walk_options walk_config length].
  change (0 <? Z.of_nat 0 + 1)%Z with true.
  change (0 <? Z.of_nat 0)%Z with false. cbv iota.
  rewrite (bind_returns (print _) _ w _ tt eq_refl).
  rewrite (bind_returns _ _ _ _ _ Hrun). rewrite Hline, Hfuel.
  reflexivity.
Qed.

Lemma modify_section_back_empty_witness :
  ∃ shown,
    modify_section no_literal no_float_str keep_dictionary keep_tuple
      keep_tuple_list 1000 2 empty_section_config "Actions" "config.ini"
      true true ∅ ∅ NoValues (World ["b"] [] ∅ None)
    = (Raises IndexError,
       after_menu (emit (end_of_section ∅) (World ["b"] [] ∅ None))
         shown []).
Proof.
  apply (modify_section_back_empty no_literal no_float_str keep_dictionary
           keep_tuple keep_tuple_list 1000 0 empty_section_config "Actions"
           "config.ini" true ∅ ∅ NoValues (World ["b"] [] ∅ None)
           "b" [] "").
  - reflexivity.
  - reflexivity.
  - reflexivity.
Defined.






(** ** Editing a scalar option *)



(** ** Editing a list of tuples *)



(** ** Coordinates *)

Lemma isdigit_char_plain (c : ascii) :
  isdigit_char c = true →
  Str.is_space c = false ∧ Ascii.eqb c "," = false
  ∧ Ascii.eqb (Str.lower_char c) "c" = false.
Proof.
  destruct c as [[] [] [] [] [] [] [] []]; vm_compute; intros H;
    try discriminate; auto.
Qed.

Lemma isdigit_chars (s : string) :
  isdigit s = true → s ≠ "" ∧ Forall (λ c, isdigit_char c = true) (chars s).
Proof.
  unfold isdigit. intros [Ht Hall]%andb_true_iff. split.
  - now apply truthy_nonempty.
  - apply Forall_forall. intros c Hc. eapply forallb_elem; eassumption.
Qed.

Lemma split_plain (s : string) :
  Forall (λ c, Ascii.eqb c "," = false) (chars s) → split "," s = [s].
Proof.
  induction s as [|c s IH]; [reflexivity|]. simpl.
  intros H. apply Forall_cons in H as [Hc Hs].
  now rewrite Hc, (IH Hs).
Qed.

Lemma split_app (s t : string) :
  Forall (λ c, Ascii.eqb c "," = false) (chars s) →
  split "," (s +:+ String "," t) = s :: split "," t.
Proof.
  induction s as [|c s IH]; [reflexivity|]. rewrite str_app_cons. simpl.
  intros H. apply Forall_cons in H as [Hc Hs].
  now rewrite Hc, (IH Hs).
Qed.

Lemma rstrip_plain (s : string) :
  Forall (λ c, Str.is_space c = false) (chars s) → Str.rstrip s = s.
Proof.
  induction s as [|c s IH]; [reflexivity|]. simpl.
  intros H. apply Forall_cons in H as [Hc Hs].
  rewrite (IH Hs). destruct s; [now rewrite Hc | reflexivity].
Qed.

Lemma strip_plain (s : string) :
  Forall (λ c, Str.is_space c = false) (chars s) → Str.strip s = s.
Proof.
  intros H. unfold Str.strip.
  assert (Str.lstrip s = s) as ->; [|now apply rstrip_plain].
  destruct s as [|c s]; [reflexivity|]. simpl.
  apply Forall_cons in H as [-> _]. reflexivity.
Qed.

(** The tidied coordinates read back as themselves. *)
Lemma typed_position_idemp (value coordinates : string) :
  typed_position value = Some coordinates →
  typed_position coordinates = Some coordinates.
Proof.
  unfold typed_position.
  destruct (split "," value) as [|x [|y [|? ?]]]; try discriminate.
  destruct (isdigit (Str.strip x)) eqn:Hx; [|discriminate].
  destruct (isdigit (Str.strip y)) eqn:Hy; [|discriminate].
  intros [= <-]. simpl.
  set (a := Str.strip x) in *. set (b := Str.strip y) in *.
  apply isdigit_chars in Hx as Hx'. destruct Hx' as [_ Ha].
  apply isdigit_chars in Hy as Hy'. destruct Hy' as [_ Hb].
  assert (Forall (λ c, Ascii.eqb c "," = false) (chars a)) as Ha1
    by (eapply Forall_impl; [exact Ha|]; intros c Hc;
        now apply isdigit_char_plain in Hc).
  assert (Forall (λ c, Str.is_space c = false) (chars a)) as Ha2
    by (eapply Forall_impl; [exact Ha|]; intros c Hc;
        now apply isdigit_char_plain in Hc).
  assert (Forall (λ c, Ascii.eqb c "," = false) (chars b)) as Hb1
    by (eapply Forall_impl; [exact Hb|]; intros c Hc;
        now apply isdigit_char_plain in Hc).
  assert (Forall (λ c, Str.is_space c = false) (chars b)) as Hb2
    by (eapply Forall_impl; [exact Hb|]; intros c Hc;
        now apply isdigit_char_plain in Hc).
  change (a +:+ ", " +:+ b) with (a +:+ String "," (String " " b)).
  rewrite (split_app a _ Ha1).
  assert (split "," (String " " b) = [String " " b]) as ->.
  { apply split_plain. simpl. constructor; [reflexivity | exact Hb1]. }
  rewrite (strip_plain a Ha2).
  assert (Str.strip (String " " b) = b) as ->.
  { unfold Str.strip. simpl. fold (Str.strip b). now apply strip_plain. }
  now rewrite Hx, Hy.
Qed.

Lemma typed_position_not_click (value coordinates : string) :
  typed_position value = Some coordinates →
  match value with
  | EmptyString => false
  | String c _ => Ascii.eqb (Str.lower_char c) "c"
  end = false.
Proof.
  unfold typed_position. destruct value as [|c value]; [reflexivity|].
  destruct (Ascii.eqb (Str.lower_char c) "c") eqn:Hc; [|reflexivity].
  intros H. exfalso. revert H. simpl.
  assert (Ascii.eqb c "," = false) as ->.
  { destruct (Ascii.eqb_spec c ","); [subst; discriminate | reflexivity]. }
  destruct (split "," value) as [|part [|y [|? ?]]]; try discriminate.
  assert (Str.is_space c = false) as Hs.
  { destruct c as [[] [] [] [] [] [] [] []]; try reflexivity;
      discriminate. }
  assert (∃ tail, Str.strip (String c part) = String c tail) as [tail ->].
  { unfold Str.strip. simpl. rewrite Hs. simpl.
    destruct (Str.rstrip part); [rewrite Hs|]; eauto. }
  unfold isdigit at 1. simpl.
  assert (isdigit_char c = false) as ->.
  { destruct (isdigit_char c) eqn:E; [|reflexivity].
    apply isdigit_char_plain in E as (_ & _ & E). congruence. }
  discriminate.
Qed.

(** X22: with the GUI modules loaded, an entry of the form [x, y] (two
    runs of digits around one comma, white space aside) is taken at
    once: [configure_position] reads that one line and returns the two
    numbers joined by a comma and a space. What it returns is itself
    such an entry, so it is accepted again when it is offered as the
    current value and kept with a blank line. *)
Theorem configure_position_typed (depth : nat) (readings : list Z)
    (pointer : Z * Z) (level : nat) (value line : string)
    (rest : list string) (w : world) (coordinates : string) :
  stdin w = line :: rest →
  typed_position (entered value line) = Some coordinates →
  (∃ shown,
     configure_position (S depth) None readings pointer level value w
     = (Returns (Some (Position coordinates)), after_menu w shown rest))
  ∧ typed_position coordinates = Some coordinates
  ∧ entered coordinates "" = coordinates.
Proof.
  intros Hin Htyped. split; [|split].
  - destruct (prompt_for_input_run
                ("coordinates/" +:+ ANSI_UNDERLINE +:+ "c" +:+ ANSI_RESET
                 +:+ "lick") level value w line rest Hin) as [shown Hrun].
    exists shown. cbn [configure_position].
    rewrite (bind_returns _ _ _ _ _ Hrun).
    rewrite (typed_position_not_click _ _ Htyped), Htyped. reflexivity.
  - eapply typed_position_idemp. exact Htyped.
  - now destruct coordinates.
Qed.

Lemma configure_position_typed_witness :
  (∃ shown,
     configure_position 1 None [] (0, 0)%Z 1 "" (World [" 12,34 "] [] ∅ None)
     = (Returns (Some (Position "12, 34")),
        after_menu (World [" 12,34 "] [] ∅ None) shown []))
  ∧ typed_position "12, 34" = Some "12, 34"
  ∧ entered "12, 34" "" = "12, 34".
Proof.
  apply (configure_position_typed 0 [] (0, 0)%Z 1 "" " 12,34 " []
           (World [" 12,34 "] [] ∅ None) "12, 34").
  - reflexivity.
  - reflexivity.
Defined.

Lemma wait_for_click_run (level : nat) (previous pressed : Z)
    (quiet later : list Z) (pointer : Z * Z) (w : world) :
  Forall (λ k, k = previous ∨ k = 0%Z ∨ k = 1%Z) quiet →
  pressed ≠ previous → pressed ≠ 0%Z → pressed ≠ 1%Z →
  wait_for_click level previous (quiet ++ pressed :: later) pointer w
  = (Returns (Some (Num.str_int pointer.1 +:+ ", "
                    +:+ Num.str_int pointer.2)),
     emit (Str.times INDENT level +:+ "coordinates: "
           +:+ (Num.str_int pointer.1 +:+ ", " +:+ Num.str_int pointer.2))
       w).
Proof.
  intros Hquiet Hp H0 H1.
  induction quiet as [|k quiet IH]; simpl.
  - rewrite (proj2 (Z.eqb_neq pressed previous) Hp).
    rewrite (proj2 (Z.eqb_neq pressed 0) H0).
    rewrite (proj2 (Z.eqb_neq pressed 1) H1). reflexivity.
  - apply Forall_cons in Hquiet as [Hk Hquiet].
    assert (negb (k =? previous)%Z && negb ((k =? 0)%Z || (k =? 1)%Z)
            = false) as ->.
    { destruct Hk as [-> | [-> | ->]].
      - now rewrite Z.eqb_refl.
      - simpl. now rewrite andb_false_r.
      - simpl. now rewrite andb_false_r. }
    now apply IH.
Qed.

(** X23: with the GUI modules loaded, an entry that starts with c, in
    either case, makes [configure_position] wait for a click: button
    states equal to the first one read, and the states 0 and 1, are
    passed over; at the first other state the position of the pointer
    is printed and returned as [x, y]. *)
Theorem configure_position_click (depth : nat) (previous pressed : Z)
    (quiet later : list Z) (pointer : Z * Z) (level : nat)
    (value line : string) (rest : list string) (w : world) (c : ascii)
    (tl : string) :
  stdin w = line :: rest →
  entered value line = String c tl →
  Str.lower_char c = "c"%char →
  Forall (λ k, k = previous ∨ k = 0%Z ∨ k = 1%Z) quiet →
  pressed ≠ previous → pressed ≠ 0%Z → pressed ≠ 1%Z →
  ∃ shown,
    configure_position (S depth) None
      (previous :: quiet ++ pressed :: later) pointer level value w
    = (Returns
         (Some (Position (Num.str_int pointer.1 +:+ ", "
                          +:+ Num.str_int pointer.2))),
       World rest
         (stdout w
          ++ [shown; waiting_for_click level;
              Str.times INDENT level +:+ "coordinates: "
              +:+ (Num.str_int pointer.1 +:+ ", "
                   +:+ Num.str_int pointer.2)])
         (disk w) (gnupg w)).
Proof.
  intros Hin Hentered Hc Hquiet Hp H0 H1.
  destruct (prompt_for_input_run
              ("coordinates/" +:+ ANSI_UNDERLINE +:+ "c" +:+ ANSI_RESET
               +:+ "lick") level value w line rest Hin) as [shown Hrun].
  exists shown. cbn [configure_position].
  rewrite (bind_returns _ _ _ _ _ Hrun), Hentered, Hc.
  change (Ascii.eqb "c" "c") with true. cbv iota.
  rewrite (bind_returns (print _) _ _ _ tt eq_refl).
  rewrite (bind_returns _ _ _ _ _
             (wait_for_click_run level previous pressed quiet later pointer
                _ Hquiet Hp H0 H1)).
  unfold after_menu, emit. cbn [stdin stdout disk gnupg fmap option_fmap
    option_map mret io_ret].
  now rewrite <- !app_assoc.
Qed.

Lemma configure_position_click_witness :
  ∃ shown,
    configure_position 1 None ([0; 0; 1] ++ [-127; 0])%Z (640, 480)%Z 0 ""
      (World ["Click"] [] ∅ None)
    = (Returns
         (Some (Position (Num.str_int (640, 480)%Z.1 +:+ ", "
                          +:+ Num.str_int (640, 480)%Z.2))),
       World []
         (stdout (World ["Click"] [] ∅ None)
          ++ [shown; waiting_for_click 0;
              Str.times INDENT 0 +:+ "coordinates: "
              +:+ (Num.str_int (640, 480)%Z.1 +:+ ", "
                   +:+ Num.str_int (640, 480)%Z.2)])
         (disk (World ["Click"] [] ∅ None))
         (gnupg (World ["Click"] [] ∅ None))).
Proof.
  apply (configure_position_click 0 0 (-127) [0; 1] [0] (640, 480) 0 ""
           "Click" [] (World ["Click"] [] ∅ None) "C" "lick")%Z.
  - reflexivity.
  - reflexivity.
  - reflexivity.
  - constructor; [now left|]. constructor; [now right; right|]. constructor.
  - discriminate.
  - discriminate.
  - discriminate.
Defined.
